(** * FuzzStorm: the coverage plotter and the seed deriver

    A shallow embedding of [plot_coverage_fast.py] and [seed.py].

    Conventions of the embedding.
    - A Python [str] in [plot_coverage_fast.py] is a Rocq [string]: its
      characters are the code points U+0000..U+00FF.  On that range
      [str.isspace], [str.split], [str.strip], [int] and the regular
      expression class [\d] are modelled exactly.
    - A Python [float] holding a time is the rational it denotes: the
      elapsed time of [time:<ms>] is [ms # 1000].  Addition and comparison
      are those of [Q].
    - [int] is modelled without the interpreter's configurable limit on the
      number of digits.
    - An exception is a value of [exn]; code that can raise returns a
      [result].  External programs are oracles, and every invocation is
      appended to a trace of [call]s.  What the operating system can
      refuse (a program that cannot be started, a file that cannot be
      opened or removed, output that is not text) is given by oracles as
      well, as a [fault].
    - [sorted] and [list.sort] are stable sorts; they are modelled by
      stable insertion sort, which computes the same list.
    - The name of a file holds at most 255 bytes, so the time in the name
      of a queue file is small enough to be divided by a [float]. *)

From Stdlib Require Import List Arith ZArith QArith Bool Lia.
From Stdlib Require Import String Ascii DecimalString.
From Stdlib Require Import Sorting.Sorted Sorting.Permutation.
Import ListNotations.

Close Scope Q_scope.
Local Open Scope string_scope.
Local Open Scope nat_scope.
Local Open Scope list_scope.

(** ** Python built-ins shared by both scripts *)

Module Py.

Inductive exn : Type :=
| FileNotFoundError
| CalledProcessError
| IndexError
| ValueError
| OverflowError
| UnicodeDecodeError
| IsADirectoryError
| NotADirectoryError
| PermissionError.

(** What makes a call to the operating system raise: the file or the
    program is not there, it is a directory where a file is needed or a
    file where a directory is needed, access is denied, or output that is
    read as text is not text in the locale's encoding. *)
Inductive fault : Type :=
| NotFound
| IsADirectory
| NotADirectory
| Denied
| Undecodable.

Definition exn_of (f : fault) : exn :=
  match f with
  | NotFound => FileNotFoundError
  | IsADirectory => IsADirectoryError
  | NotADirectory => NotADirectoryError
  | Denied => PermissionError
  | Undecodable => UnicodeDecodeError
  end.

Inductive result (A : Type) : Type :=
| Ok (a : A)
| Raise (e : exn).

Arguments Ok {A} a.
Arguments Raise {A} e.

Definition rbind {A B : Type} (r : result A) (k : A -> result B) : result B :=
  match r with
  | Ok a => k a
  | Raise e => Raise e
  end.

(** [l[i]] for a non-negative index. *)
Definition getitem {A : Type} (l : list A) (i : nat) : result A :=
  match nth_error l i with
  | Some a => Ok a
  | None => Raise IndexError
  end.

(** Stable insertion sort: [x] is put in front of the first element that
    is not smaller, so elements that compare equal keep their order. *)
Fixpoint insert {A : Type} (leb : A -> A -> bool) (x : A) (l : list A) : list A :=
  match l with
  | [] => [x]
  | y :: l' => if leb x y then x :: l else y :: insert leb x l'
  end.

Fixpoint sorted {A : Type} (leb : A -> A -> bool) (l : list A) : list A :=
  match l with
  | [] => []
  | x :: l' => insert leb x (sorted leb l')
  end.

(** [str.isspace] on U+0000..U+00FF. *)
Definition isspace (c : ascii) : bool :=
  let n := nat_of_ascii c in
  ((9 <=? n) && (n <=? 13)) || ((28 <=? n) && (n <=? 32))
  || (n =? 133) || (n =? 160).

Definition isdigit (c : ascii) : bool :=
  let n := nat_of_ascii c in (48 <=? n) && (n <=? 57).

Definition digit_value (c : ascii) : Z := Z.of_nat (nat_of_ascii c) - 48.

Fixpoint lstrip (s : string) : string :=
  match s with
  | EmptyString => EmptyString
  | String c s' => if isspace c then lstrip s' else s
  end.

Fixpoint rstrip (s : string) : string :=
  match s with
  | EmptyString => EmptyString
  | String c s' =>
      match rstrip s' with
      | EmptyString => if isspace c then EmptyString else String c EmptyString
      | r => String c r
      end
  end.

Definition strip (s : string) : string := rstrip (lstrip s).

(** [s.split(sep)] for a one-character separator. *)
Fixpoint split_on (sep : ascii) (s : string) : list string :=
  match s with
  | EmptyString => [EmptyString]
  | String c s' =>
      if Ascii.eqb c sep then EmptyString :: split_on sep s'
      else match split_on sep s' with
           | [] => [String c EmptyString]
           | w :: ws => String c w :: ws
           end
  end.

(** [s.split()]: the maximal runs of non-whitespace characters. *)
Fixpoint split (s : string) : list string :=
  match s with
  | EmptyString => []
  | String c s' =>
      if isspace c then split s'
      else match s' with
           | EmptyString => [String c EmptyString]
           | String c' _ =>
               if isspace c' then String c EmptyString :: split s'
               else match split s' with
                    | [] => [String c EmptyString]
                    | w :: ws => String c w :: ws
                    end
           end
  end.

Definition startswith (s p : string) : bool := String.prefix p s.

Fixpoint endswith_rev (s p : list ascii) : bool :=
  match p, s with
  | [], _ => true
  | _ :: _, [] => false
  | a :: p', b :: s' => Ascii.eqb a b && endswith_rev s' p'
  end.

Definition endswith (s p : string) : bool :=
  endswith_rev (rev (list_ascii_of_string s)) (rev (list_ascii_of_string p)).

(** The digits of an integer literal after its first digit: digits, with
    single underscores allowed between two digits. *)
Fixpoint int_digits (s : string) (acc : Z) (after_underscore : bool) : option Z :=
  match s with
  | EmptyString => if after_underscore then None else Some acc
  | String c s' =>
      if isdigit c then int_digits s' (10 * acc + digit_value c) false
      else if Ascii.eqb c "_"
           then if after_underscore then None else int_digits s' acc true
           else None
  end.

Definition int_unsigned (s : string) : option Z :=
  match s with
  | EmptyString => None
  | String c s' => if isdigit c then int_digits s' (digit_value c) false else None
  end.

(** The characters [int] skips around a literal.  [int] turns the white
    space above U+007F into a blank and then skips ASCII white space, so
    U+001C..U+001F, which are white space for [str.isspace], are not
    skipped. *)
Definition int_isspace (c : ascii) : bool :=
  let n := nat_of_ascii c in
  ((9 <=? n) && (n <=? 13)) || (n =? 32) || (n =? 133) || (n =? 160).

Fixpoint int_lskip (s : string) : string :=
  match s with
  | EmptyString => EmptyString
  | String c s' => if int_isspace c then int_lskip s' else s
  end.

Fixpoint int_rskip (s : string) : string :=
  match s with
  | EmptyString => EmptyString
  | String c s' =>
      match int_rskip s' with
      | EmptyString => if int_isspace c then EmptyString else String c EmptyString
      | r => String c r
      end
  end.

(** [int(s)] in base 10: surrounding whitespace, an optional sign,
    then the digits.  [ValueError] otherwise. *)
Definition int (s : string) : result Z :=
  let body :=
    match int_rskip (int_lskip s) with
    | String "+" s' => int_unsigned s'
    | String "-" s' => option_map Z.opp (int_unsigned s')
    | s' => int_unsigned s'
    end in
  match body with
  | Some z => Ok z
  | None => Raise ValueError
  end.

End Py.

Import Py.

Notation "x <- c1 ;; c2" := (rbind c1 (fun x => c2))
  (at level 61, c1 at next level, right associativity).

(** ** plot_coverage_fast.py *)

Module PlotCoverage.

(** A [pathlib.Path]: the directory it was globbed from and its last
    component. *)
Record Path : Type := mkPath { parent : string; name : string }.

(** Paths of one directory are ordered by their last component. *)
Definition path_leb (p q : Path) : bool := String.leb (name p) (name q).

(** [Path(d).glob(pattern)] over the entries [names] of the directory, in
    the order the operating system lists them. *)
Definition glob (matches : string -> bool) (d : string) (names : list string) : list Path :=
  map (mkPath d) (filter matches names).

Fixpoint drop (n : nat) (s : string) : string :=
  match n, s with
  | O, _ => s
  | S _, EmptyString => EmptyString
  | S n', String _ s' => drop n' s'
  end.

(** The longest prefix of decimal digits: what a greedy [\d+] consumes. *)
Fixpoint take_digits (s : string) : string :=
  match s with
  | EmptyString => EmptyString
  | String c s' => if isdigit c then String c (take_digits s') else EmptyString
  end.

(** [time:(\d+)] matched at the first character of [s]; the result is
    group 1. *)
Definition match_time (s : string) : option string :=
  if startswith s "time:"
  then match take_digits (drop 5 s) with
       | EmptyString => None
       | ds => Some ds
       end
  else None.

(** [time_pattern.search(s)]: the leftmost match. *)
Fixpoint search_time (s : string) : option string :=
  match match_time s with
  | Some g => Some g
  | None =>
      match s with
      | EmptyString => None
      | String _ s' => search_time s'
      end
  end.

Definition queue_file : Type := (Q * Path)%type.

Definition time_leb (a b : queue_file) : bool := Qle_bool (fst a) (fst b).

(** The loop of [parse_queue_files] over the sorted glob. *)
Fixpoint scan_queue (paths : list Path) : result (list queue_file) :=
  match paths with
  | [] => Ok []
  | file_path :: rest =>
      match search_time (name file_path) with
      | Some g =>
          time_ms <- int g ;;
          tl <- scan_queue rest ;;
          Ok (((time_ms # 1000)%Q, file_path) :: tl)
      | None => scan_queue rest
      end
  end.

(** [entries] is the state of [queue_dir] in the file system: [None] when
    the path does not exist, otherwise the names of its entries. *)
Definition parse_queue_files (queue_dir : string) (entries : option (list string))
  : result (list queue_file) :=
  match entries with
  | None => Raise FileNotFoundError
  | Some names =>
      let paths := sorted path_leb (glob (fun n => startswith n "id:") queue_dir names) in
      queue_files <- scan_queue paths ;;
      Ok (sorted time_leb queue_files)
  end.

(** The checkpoints of [get_cumulative_coverage], as a function of
    [len(profraw_files)].  The function is only reached with a non-empty
    list, so [n - 1] is never truncated there. *)
Definition sample_points (n : nat) : list nat :=
  let sample_points := [0; 10; 20; 50; 100; 200; 500; 1000; n - 1] in
  let sample_points := filter (fun i => i <? n) sample_points in
  if negb (existsb (Nat.eqb (n - 1)) sample_points)
  then sample_points ++ [n - 1]
  else sample_points.

(** The body of the [try] in [parse_coverage_report]. *)
Definition read_branches (parts : list string) : result (Z * Z) :=
  p10 <- getitem parts 10 ;;
  branches_total <- int p10 ;;
  p11 <- getitem parts 11 ;;
  branches_missed <- int p11 ;;
  Ok ((branches_total - branches_missed)%Z, branches_total).

(** The [for] loop of [parse_coverage_report] over [reversed(lines)]. *)
Fixpoint scan_report (lines : list string) : result (Z * Z) :=
  match lines with
  | [] => Ok (0%Z, 0%Z)
  | line :: rest =>
      if startswith line "TOTAL" then
        let parts := split line in
        if 13 <=? List.length parts then
          match read_branches parts with
          | Ok r => Ok r
          | Raise ValueError => scan_report rest
          | Raise IndexError => scan_report rest
          | Raise e => Raise e
          end
        else scan_report rest
      else scan_report rest
  end.

Definition newline : ascii := ascii_of_nat 10.

Definition report_lines (report_text : string) : list string :=
  split_on newline (strip report_text).

Definition parse_coverage_report (report_text : string) : result (Z * Z) :=
  scan_report (rev (report_lines report_text)).

(** An invocation of an external program or of the file system by
    [get_cumulative_coverage]; [temp_<i>.profdata] is named by [i]. *)
Inductive call : Type :=
| ProfdataMerge (out : nat) (inputs : list Path)
| CovReport (harness_bin : string) (instr_profile : nat)
| Unlink (profdata : nat).

(** The external tools: whether [llvm-profdata merge] of these profiles
    exits with status zero, and what [llvm-cov report] prints for the
    database merged from them ([None] when it exits non-zero).

    The other three fields say what goes wrong before there is an exit
    status to look at.  [profdata_fault] and [cov_fault] tell why
    [subprocess.run] itself raises: the program cannot be started
    ([FileNotFoundError], [PermissionError]) or, for the report, which is
    read with [text=True], its output is not text in the locale's
    encoding ([UnicodeDecodeError]).  [unlink_fault] tells why
    [temp_<i>.profdata.unlink()] raises, [FileNotFoundError] when the
    merge left no database. *)
Record tools : Type := mkTools {
  llvm_profdata : list Path -> bool;
  llvm_cov : list Path -> option string;
  profdata_fault : list Path -> option fault;
  cov_fault : list Path -> option fault;
  unlink_fault : nat -> option fault
}.

(** Computations that may raise and that log the calls they make. *)
Definition M (A : Type) : Type := list call -> result A * list call.

Definition ret {A : Type} (a : A) : M A := fun tr => (Ok a, tr).

Definition bind {A B : Type} (m : M A) (k : A -> M B) : M B :=
  fun tr =>
    match m tr with
    | (Ok a, tr') => k a tr'
    | (Raise e, tr') => (Raise e, tr')
    end.

Definition lift {A : Type} (r : result A) : M A := fun tr => (r, tr).

(** [subprocess.run(cmd, check=True)] and [Path.unlink]: the call is
    logged; it raises the exception of the fault when there is one, and
    [CalledProcessError] when the program exits non-zero. *)
Definition run {A : Type} (c : call) (failure : option fault) (outcome : option A) : M A :=
  fun tr =>
    (match failure with
     | Some f => Raise (exn_of f)
     | None =>
         match outcome with Some a => Ok a | None => Raise CalledProcessError end
     end,
     tr ++ [c]).

Notation "x <~ c1 ;; c2" := (bind c1 (fun x => c2))
  (at level 61, c1 at next level, right associativity).

Definition sample : Type := (Q * Z * Z)%type.

Definition Qltb (x y : Q) : bool := negb (Qle_bool y x).

(** The clamp applied to a checkpoint's time. *)
Definition adjust_time (time_sec : Q) (time_shift : Z) : Q :=
  let adjusted_time := (time_sec + inject_Z time_shift)%Q in
  if Qltb adjusted_time 1 then 1%Q else adjusted_time.

(** An [int] that is added to a [float] is converted first.  From
    [2^1024 - 2^970] on, it rounds to [2^1024], which no [float] holds,
    and the conversion raises [OverflowError]. *)
Definition float_limit : Z := (2 ^ 1024 - 2 ^ 970)%Z.

Definition float_of_int (n : Z) : result Q :=
  if (Z.abs n <? float_limit)%Z then Ok (inject_Z n) else Raise OverflowError.

(** The [for sample_idx in sample_points] loop. *)
Fixpoint sample_loop (t : tools) (harness_bin : string) (profraw_files : list Path)
  (queue_files : list queue_file) (time_shift : Z)
  (points : list nat) (results : list sample) : M (list sample) :=
  match points with
  | [] => ret results
  | sample_idx :: rest =>
      let files_to_merge := firstn (sample_idx + 1) profraw_files in
      _ <~ run (ProfdataMerge sample_idx files_to_merge)
               (profdata_fault t files_to_merge)
               (if llvm_profdata t files_to_merge then Some tt else None) ;;
      stdout <~ run (CovReport harness_bin sample_idx)
                    (cov_fault t files_to_merge) (llvm_cov t files_to_merge) ;;
      branches <~ lift (parse_coverage_report stdout) ;;
      q <~ lift (getitem queue_files sample_idx) ;;
      _ <~ lift (float_of_int time_shift) ;;
      let adjusted_time := adjust_time (fst q) time_shift in
      _ <~ run (Unlink sample_idx) (unlink_fault t sample_idx) (Some tt) ;;
      sample_loop t harness_bin profraw_files queue_files time_shift rest
        (results ++ [(adjusted_time, fst branches, snd branches)])
  end.

(** [entries] lists the names in [profraw_dir]. *)
Definition get_cumulative_coverage (profraw_dir : string) (entries : list string)
  (t : tools) (harness_bin : string) (queue_files : list queue_file)
  (time_shift : Z) : M (list sample) :=
  let profraw_files :=
    sorted path_leb (glob (fun n => endswith n ".profraw") profraw_dir entries) in
  match profraw_files with
  | [] => ret []
  | _ :: _ =>
      sample_loop t harness_bin profraw_files queue_files time_shift
        (sample_points (List.length profraw_files)) []
  end.

End PlotCoverage.

Import PlotCoverage.

(** ** seed.py *)

Module Seed.

(** In [seed.py] text comes from decoding arbitrary bytes, so a [str] is
    the list of its code points. *)
Definition str : Type := list N.

Definition lit (s : string) : str := map N_of_ascii (list_ascii_of_string s).

(** Lexicographic order on code points, the order of [str] and of the
    paths of one directory. *)
Fixpoint str_leb (a b : str) : bool :=
  match a, b with
  | [], _ => true
  | _ :: _, [] => false
  | x :: a', y :: b' => (x <? y)%N || ((x =? y)%N && str_leb a' b')
  end.

Definition replacement : N := 65533%N.

Definition continuation (b : N) : bool := (128 <=? b)%N && (b <=? 191)%N.

(** The second byte allowed after the lead byte [b0] of a sequence of
    three or four bytes. *)
Definition second_ok (b0 b1 : N) : bool :=
  if (b0 =? 224)%N then (160 <=? b1)%N && (b1 <=? 191)%N
  else if (b0 =? 237)%N then (128 <=? b1)%N && (b1 <=? 159)%N
  else if (b0 =? 240)%N then (144 <=? b1)%N && (b1 <=? 191)%N
  else if (b0 =? 244)%N then (128 <=? b1)%N && (b1 <=? 143)%N
  else continuation b1.

Definition low6 (b : N) : N := N.land b 63.

(** UTF-8 decoding that replaces each ill-formed maximal subpart by
    U+FFFD, on bytes given by their values. *)
Fixpoint utf8_replace (bs : list N) : str :=
  match bs with
  | [] => []
  | b0 :: r0 =>
      if (b0 <? 128)%N then b0 :: utf8_replace r0
      else if (b0 <? 194)%N then replacement :: utf8_replace r0
      else if (b0 <? 224)%N then
        match r0 with
        | [] => [replacement]
        | b1 :: r1 =>
            if continuation b1
            then (N.shiftl (N.land b0 31) 6 + low6 b1)%N :: utf8_replace r1
            else replacement :: utf8_replace r0
        end
      else if (b0 <? 240)%N then
        match r0 with
        | [] => [replacement]
        | b1 :: r1 =>
            if second_ok b0 b1 then
              match r1 with
              | [] => [replacement]
              | b2 :: r2 =>
                  if continuation b2
                  then (N.shiftl (N.land b0 15) 12 + N.shiftl (low6 b1) 6 + low6 b2)%N
                       :: utf8_replace r2
                  else replacement :: utf8_replace r1
              end
            else replacement :: utf8_replace r0
        end
      else if (b0 <? 245)%N then
        match r0 with
        | [] => [replacement]
        | b1 :: r1 =>
            if second_ok b0 b1 then
              match r1 with
              | [] => [replacement]
              | b2 :: r2 =>
                  if continuation b2 then
                    match r2 with
                    | [] => [replacement]
                    | b3 :: r3 =>
                        if continuation b3
                        then (N.shiftl (N.land b0 7) 18 + N.shiftl (low6 b1) 12
                              + N.shiftl (low6 b2) 6 + low6 b3)%N
                             :: utf8_replace r3
                        else replacement :: utf8_replace r2
                    end
                  else replacement :: utf8_replace r1
              end
            else replacement :: utf8_replace r0
        end
      else replacement :: utf8_replace r0
  end.

(** [b.decode("utf-8", errors="replace")]. *)
Definition decode (b : list Byte.byte) : str := utf8_replace (map Byte.to_N b).

(** The line boundaries of [str.splitlines] other than CR. *)
Definition linebreak (c : N) : bool :=
  existsb (N.eqb c) [10; 11; 12; 28; 29; 30; 133; 8232; 8233]%N.

Fixpoint splitlines (s : str) : list str :=
  match s with
  | [] => []
  | c :: s' =>
      if (c =? 13)%N then
        match s' with
        | 10%N :: s'' => [] :: splitlines s''
        | _ => [] :: splitlines s'
        end
      else if linebreak c then [] :: splitlines s'
      else match splitlines s' with
           | [] => [[c]]
           | l :: ls => (c :: l) :: ls
           end
  end.

(** [sep.join(items)]. *)
Fixpoint join (sep : str) (items : list str) : str :=
  match items with
  | [] => []
  | [x] => x
  | x :: rest => x ++ sep ++ join sep rest
  end.

(** [s.replace(":", "_")]. *)
Definition sanitize (s : str) : str :=
  map (fun c => if (c =? 58)%N then 95%N else c) s.

(** [str(n)] for an integer. *)
Definition str_of_Z (n : Z) : str := lit (DecimalString.NilZero.string_of_int (Z.to_int n)).

(** What [subprocess.run] returns. *)
Record CompletedProcess : Type := mkProc {
  returncode : Z;
  stdout : list Byte.byte;
  stderr : list Byte.byte
}.

(** The encoder binary: the process it completes as, on a given input. *)
Definition encoder : Type := list Byte.byte -> CompletedProcess.

Definition warning (code : Z) : str :=
  lit "[WARN] encoder failed (code " ++ str_of_Z code ++ lit ")" ++ [10%N].

(** [run_encoder]: the lines returned and the strings written to
    [sys.stderr], in order. *)
Definition run_encoder (enc : encoder) (payload : list Byte.byte) : list str * list str :=
  let proc := enc payload in
  if negb (returncode proc =? 0)%Z then
    ([], warning (returncode proc)
         :: match stderr proc with
            | [] => []
            | _ :: _ => [decode (stderr proc)]
            end)
  else (splitlines (decode (stdout proc)), []).





(** An entry of the queue directory. *)
Inductive entry : Type :=
| RegularFile (payload : list Byte.byte)
| NotAFile.

(** What [main] has done so far: the strings written to [sys.stderr],
    the calls of [write_text] under [OUTPUT_DIR] (name and text, oldest
    first) and the two counters. *)
Record state : Type := mkState {
  err : list str;
  written : list (str * str);
  total_written : nat;
  file_written : nat
}.

Definition initial : state := mkState [] [] 0 0.

(** The body of the [for path in sorted(QUEUE_DIR.iterdir())] loop. *)
Definition loop_body (enc : encoder) (st : state) (path : str * entry) : state :=
  match snd path with
  | NotAFile => st
  | RegularFile payload =>
      let '(outputs, warnings) := run_encoder enc payload in
      let st := mkState (err st ++ warnings) (written st) (total_written st) (file_written st) in
      match outputs with
      | [] => st
      | _ :: _ =>
          let fname := sanitize (fst path) in
          mkState (err st)
                  (written st ++ [(fname, join [10%N] outputs ++ [10%N])])
                  (total_written st + List.length outputs)
                  (file_written st + 1)
      end
  end.

Definition main_loop (enc : encoder) (paths : list (str * entry)) (st : state) : state :=
  fold_left (loop_body enc) paths st.

(** [sys.exit] with one of the two messages, or the state after the loop. *)
Inductive outcome : Type :=
| QueueDirectoryNotFound
| EncoderBinaryNotFound
| Finished (st : state).

(** [queue] is [None] when [QUEUE_DIR] is not a directory and [enc] is
    [None] when [ENCODER_BIN] is not a file. *)
Definition main (queue : option (list (str * entry))) (enc : option encoder) : outcome :=
  match queue with
  | None => QueueDirectoryNotFound
  | Some entries =>
      match enc with
      | None => EncoderBinaryNotFound
      | Some e =>
          Finished (main_loop e (sorted (fun p q => str_leb (fst p) (fst q)) entries) initial)
      end
  end.

End Seed.


(** ** Predicates used in the statements *)

Module Spec.

(** The sample that checkpoint [idx] produces when both tools succeed and
    the queue has an entry at [idx]. *)
Definition sample_at (t : tools) (profraw_files : list Path)
  (queue_files : list queue_file) (time_shift : Z) (idx : nat) (s : sample) : Prop :=
  exists stdout branches q,
    llvm_cov t (firstn (idx + 1) profraw_files) = Some stdout
    /\ parse_coverage_report stdout = Ok branches
    /\ nth_error queue_files idx = Some q
    /\ s = (adjust_time (fst q) time_shift, fst branches, snd branches).

Definition sample_time (s : sample) : Q := fst (fst s).

Definition branches_covered (s : sample) : Z := snd (fst s).

(** [line] is an aggregate row that can be read: it begins with the
    marker, has at least 13 fields, and its fields 10 and 11 are the
    integers [total] and [missed]. *)
Definition usable_row (line : string) (total missed : Z) : Prop :=
  startswith line "TOTAL" = true
  /\ 13 <= List.length (split line)
  /\ exists p10 p11,
       nth_error (split line) 10 = Some p10
       /\ nth_error (split line) 11 = Some p11
       /\ int p10 = Ok total
       /\ int p11 = Ok missed.

Definition unusable (line : string) : Prop :=
  forall total missed, ~ usable_row line total missed.

(** The first line, in reverse order, that begins with the marker. *)
Definition last_total_line (report_text : string) : option string :=
  find (fun line => startswith line "TOTAL") (rev (report_lines report_text)).

(** The value of a run of decimal digits. *)
Fixpoint decimal_from (ds : string) (acc : Z) : Z :=
  match ds with
  | EmptyString => acc
  | String c ds' => decimal_from ds' (10 * acc + digit_value c)
  end.

Definition decimal (ds : string) : Z := decimal_from ds 0.

Fixpoint all_digits (ds : string) : bool :=
  match ds with
  | EmptyString => true
  | String c ds' => isdigit c && all_digits ds'
  end.

(** [ds] is the digit run of the leftmost occurrence of [time:<digits>]
    in [n]: a non-empty run of digits right after [time:], as long as it
    can be, with no occurrence that starts earlier. *)
Definition time_token (n ds : string) : Prop :=
  exists pre post,
    n = (pre ++ "time:" ++ ds ++ post)%string
    /\ ds <> EmptyString
    /\ all_digits ds = true
    /\ (forall d post', post = String d post' -> isdigit d = false)
    /\ (forall pre' ds' post',
          n = (pre' ++ "time:" ++ ds' ++ post')%string ->
          ds' <> EmptyString -> all_digits ds' = true ->
          String.length pre <= String.length pre').

(** [n] contains [time:] followed by at least one digit. *)
Definition has_time_token (n : string) : Prop :=
  exists pre ds post,
    n = (pre ++ "time:" ++ ds ++ post)%string /\ ds <> EmptyString /\ all_digits ds = true.

(** [a] may come before [b] after a stable sort by [leb] of a list that
    was in the order [R]: the key of [a] is not larger, and on equal keys
    the two are in the order [R]. *)
Definition before {A : Type} (leb : A -> A -> bool) (R : A -> A -> Prop) (a b : A) : Prop :=
  leb a b = true /\ (leb b a = true -> R a b).

(** Ascending order of the file names of two queue entries. *)
Definition name_le (a b : queue_file) : Prop :=
  String.leb (name (snd a)) (name (snd b)) = true.

(** The pattern is found in the name of [p]. *)
Definition has_match (p : Path) : bool :=
  match search_time (name p) with
  | Some _ => true
  | None => false
  end.

(** The calls made for one checkpoint. *)
Definition checkpoint_calls (harness_bin : string) (profraw_files : list Path)
  (idx : nat) : list call :=
  [ProfdataMerge idx (firstn (idx + 1) profraw_files);
   CovReport harness_bin idx;
   Unlink idx].

(** The inputs of the merges of a trace, in order. *)
Definition merge_sets (tr : list call) : list (list Path) :=
  flat_map (fun c => match c with
                     | ProfdataMerge _ inputs => [inputs]
                     | _ => []
                     end) tr.

Definition prefix_of {A : Type} (a b : list A) : Prop := exists more, b = a ++ more.

(** The covered-branch count that the sampler reads off the report for
    the database merged from [files]. *)
Definition reported_covered (t : tools) (files : list Path) : Z :=
  match llvm_cov t files with
  | Some stdout =>
      match parse_coverage_report stdout with
      | Ok branches => fst branches
      | Raise _ => 0%Z
      end
  | None => 0%Z
  end.

(** The reports of the tool never show fewer covered branches for a
    longer prefix of the profiles. *)
Definition reports_monotone (t : tools) (profraw_files : list Path) : Prop :=
  forall i j, i <= j ->
    (reported_covered t (firstn (i + 1) profraw_files)
     <= reported_covered t (firstn (j + 1) profraw_files))%Z.

End Spec.

Import Spec.

(** ** plot_coverage_fast.py: the replay of the queue *)

Module Batch.

Fixpoint pow10 (w : nat) : N :=
  match w with
  | O => 1%N
  | S w' => (pow10 w' * 10)%N
  end.

Definition digit_char (d : N) : ascii := ascii_of_N (48 + d).

(** The last [w] decimal digits of [n], most significant first. *)
Fixpoint digits (w : nat) (n : N) : string :=
  match w with
  | O => EmptyString
  | S w' => String (digit_char ((n / pow10 w') mod 10)) (digits w' n)
  end.

(** [str(n)] for a non-negative integer. *)
Definition str_of_N (n : N) : string := NilZero.string_of_uint (N.to_uint n).

(** [format(idx, "06d")]: six digits with leading zeros below 10^6, the
    plain decimal from there on. *)
Definition format_06d (idx : N) : string :=
  if (idx <? 1000000)%N then digits 6 idx else str_of_N idx.

(** The last component of [profraw_dir / f"{idx:06d}.profraw"]. *)
Definition profile_name (idx : N) : string := (format_06d idx ++ ".profraw")%string.

(** The loop of [run_coverage_batch] from index [idx] on: the names of
    the profiles that the replays leave in the directory, in the order of
    the replays.  [harness p] tells whether the target, run on the content
    of [p] with [LLVM_PROFILE_FILE] set, leaves a profile; its exit status
    is not looked at. *)
Fixpoint replay (harness : Path -> bool) (idx : N) (queue_files : list queue_file)
  : list string :=
  match queue_files with
  | [] => []
  | (_, file_path) :: rest =>
      (if harness file_path then [profile_name idx] else [])
      ++ replay harness (N.succ idx) rest
  end.

(** The directory is removed and created anew, so what it holds after a
    batch that runs to its end are the profiles of this batch only. *)
Definition run_coverage_batch (harness : Path -> bool) (queue_files : list queue_file)
  : list string :=
  replay harness 0 queue_files.

(** The batch does not run to its end when a replay raises:
    [open(file_path, 'rb')] does when the entry cannot be opened for
    reading (a directory whose name is kept by the scanner, a file that is
    gone or may not be read), and [subprocess.run] does when the harness
    cannot be started.  [failure p] tells why the replay of [p] raises;
    the batch raises at the first replay that does. *)
Fixpoint batch_fault (failure : Path -> option fault) (queue_files : list queue_file)
  : option fault :=
  match queue_files with
  | [] => None
  | (_, file_path) :: rest =>
      match failure file_path with
      | Some f => Some f
      | None => batch_fault failure rest
      end
  end.

End Batch.

Import Batch.


(** ** plot_coverage_fast.py: the comparison plot and [main] *)

Module PlotMain.

(** A [dict] with string keys: the items in insertion order. *)
Definition dict (V : Type) : Type := list (string * V).

(** [d[k] = v]: the value of an existing key is replaced where the key
    stands, a new key goes to the end. *)
Fixpoint dict_set {V : Type} (k : string) (v : V) (d : dict V) : dict V :=
  match d with
  | [] => [(k, v)]
  | (k', v') :: d' =>
      if String.eqb k' k then (k', v) :: d' else (k', v') :: dict_set k v d'
  end.

(** [d.get(k)]. *)
Fixpoint dict_get {V : Type} (k : string) (d : dict V) : option V :=
  match d with
  | [] => None
  | (k', v) :: d' => if String.eqb k' k then Some v else dict_get k d'
  end.

(** [dict(pairs)] and the dict comprehension. *)
Definition dict_of {V : Type} (pairs : list (string * V)) : dict V :=
  fold_left (fun d kv => dict_set (fst kv) (snd kv) d) pairs [].

Definition colors : list string :=
  ["#2E86AB"; "#A23B72"; "#F18F01"; "#C73E1D"; "#6A994E"].

(** One call of [plt.plot]: the label, the colour, the times and the
    covered branches. *)
Record series : Type := mkSeries {
  series_label : string;
  series_color : string;
  series_times : list Q;
  series_branches : list Z
}.

(** The loop of [plot_comparison] from position [idx] on: the lines
    drawn, in order. *)
Fixpoint plot_from (labels : dict string) (idx : nat) (items : dict (list sample))
  : list series :=
  match items with
  | [] => []
  | (run_name, data) :: rest =>
      match data with
      | [] => plot_from labels (S idx) rest
      | _ :: _ =>
          let times := map (fun d => fst (fst d)) data in
          let branches := map (fun d => snd (fst d)) data in
          let label := match dict_get run_name labels with
                       | Some l => l
                       | None => run_name
                       end in
          let color := nth (idx mod List.length colors) colors EmptyString in
          mkSeries label color times branches :: plot_from labels (S idx) rest
      end
  end.

Definition plot_comparison (runs_data : dict (list sample)) (labels : dict string)
  : list series :=
  plot_from labels 0 runs_data.

(** The parsed command line and whether the harness binary exists. *)
Record args : Type := mkArgs {
  runs_arg : string;
  labels_arg : option string;
  time_shifts_arg : option string;
  harness_arg : string;
  harness_exists : bool
}.

(** What [main] finds outside: for each run, the resolved path of
    [Path(run) / "default" / "queue"] and the entries of that directory
    ([None] when it does not exist); whether a replay leaves a profile;
    the coverage tools; why removing and creating the directory of the
    profiles of a run raises, if it does; and why the replay of a queue
    file raises, if it does. *)
Record world : Type := mkWorld {
  queue_dir_of : string -> string;
  queue_of : string -> option (list string);
  leaves_profile : Path -> bool;
  coverage_tools : tools;
  setup_fault : string -> option fault;
  replay_fault : Path -> option fault
}.

(** A step that raises when there is a fault. *)
Definition unless (failure : option fault) : result unit :=
  match failure with
  | Some f => Raise (exn_of f)
  | None => Ok tt
  end.

(** [if arg:] on an optional string argument. *)
Definition given (arg : option string) : option string :=
  match arg with
  | Some EmptyString => None
  | _ => arg
  end.

(** [[int(x) for x in xs]]. *)
Fixpoint ints (xs : list string) : result (list Z) :=
  match xs with
  | [] => Ok []
  | x :: rest =>
      n <- int x ;;
      ns <- ints rest ;;
      Ok (n :: ns)
  end.

Definition colon : ascii := ":"%char.

Definition slash_to_underscore (s : string) : string :=
  string_of_list_ascii
    (map (fun c => if Ascii.eqb c "/" then "_"%char else c) (list_ascii_of_string s)).

(** The directory of the profiles of a run, relative to the working
    directory. *)
Definition profraw_dir_of (run : string) : string :=
  ("temp_" ++ slash_to_underscore run ++ "_profraw")%string.

(** The body of the [try] in [main]: the samples of a run, or the
    exception that the [except] clause catches. *)
Definition analyze (w : world) (harness_bin : string) (run : string) (time_shift : Z)
  : result (list sample) :=
  queue_files <- parse_queue_files (queue_dir_of w run) (queue_of w run) ;;
  _ <- getitem queue_files 0 ;;
  _ <- unless (setup_fault w (profraw_dir_of run)) ;;
  _ <- unless (batch_fault (replay_fault w) queue_files) ;;
  let entries := run_coverage_batch (leaves_profile w) queue_files in
  fst (get_cumulative_coverage (profraw_dir_of run) entries (coverage_tools w)
         harness_bin queue_files time_shift []).

(** The [for run in runs] loop: the run whose time shift is missing, when
    [time_shifts[run]] raises [KeyError], or [runs_data]. *)
Fixpoint main_loop (w : world) (harness_bin : string) (time_shifts : dict Z)
  (runs : list string) (runs_data : dict (list sample)) : string + dict (list sample) :=
  match runs with
  | [] => inr runs_data
  | run :: rest =>
      match dict_get run time_shifts with
      | None => inl run
      | Some time_shift =>
          match analyze w harness_bin run time_shift with
          | Ok data =>
              main_loop w harness_bin time_shifts rest (dict_set run data runs_data)
          | Raise _ => main_loop w harness_bin time_shifts rest runs_data
          end
      end
  end.

(** How [main] ends. *)
Inductive outcome : Type :=
| UncaughtValueError
| UncaughtKeyError (key : string)
| HarnessNotFound
| NoData
| Plot (lines : list series).

Definition main (a : args) (w : world) : outcome :=
  let runs := split_on colon (runs_arg a) in
  let labels :=
    match given (labels_arg a) with
    | Some s => dict_of (combine runs (split_on colon s))
    | None => dict_of (map (fun run => (run, ("Run " ++ run)%string)) runs)
    end in
  let time_shifts :=
    match given (time_shifts_arg a) with
    | Some s =>
        time_shifts_list <- ints (split_on colon s) ;;
        Ok (dict_of (combine runs time_shifts_list))
    | None => Ok (dict_of (map (fun run => (run, 0%Z)) runs))
    end in
  match time_shifts with
  | Raise _ => UncaughtValueError
  | Ok time_shifts =>
      if negb (harness_exists a) then HarnessNotFound
      else
        match main_loop w (harness_arg a) time_shifts runs [] with
        | inl run => UncaughtKeyError run
        | inr [] => NoData
        | inr runs_data => Plot (plot_comparison runs_data labels)
        end
  end.

End PlotMain.

Import PlotMain.

(** ** Predicates used for the rest of the code *)

Module SpecMore.

(** The checkpoints that the sampler visits for this list of profiles. *)
Definition checkpoints (profraw_files : list Path) : list nat :=
  match profraw_files with
  | [] => []
  | _ :: _ => sample_points (List.length profraw_files)
  end.

(** The profiles that the sampler works on, as it sorts them. *)
Definition profiles_of (profraw_dir : string) (entries : list string) : list Path :=
  sorted path_leb (glob (fun n => endswith n ".profraw") profraw_dir entries).

(** The name is kept by the scanner: it begins with [id:] and the
    pattern is found in it. *)
Definition kept_name (n : string) : bool :=
  startswith n "id:"
  && match search_time n with
     | Some _ => true
     | None => false
     end.

(** The steps of a checkpoint that can raise. *)
Inductive stage : Type :=
| AtMerge
| AtReport
| AtQueueLookup
| AtTimeShift
| AtUnlink.

(** The calls made for a checkpoint that stops at a stage. *)
Definition unfinished_calls (harness_bin : string) (profraw_files : list Path)
  (idx : nat) (s : stage) : list call :=
  match s with
  | AtMerge => [ProfdataMerge idx (firstn (idx + 1) profraw_files)]
  | AtReport | AtQueueLookup | AtTimeShift =>
      [ProfdataMerge idx (firstn (idx + 1) profraw_files); CovReport harness_bin idx]
  | AtUnlink => checkpoint_calls harness_bin profraw_files idx
  end.

(** Why the checkpoint [idx] stops at the stage [s] with the exception
    [e]. *)
Definition fails_at (t : tools) (profraw_files : list Path)
  (queue_files : list queue_file) (time_shift : Z) (idx : nat) (s : stage) (e : exn)
  : Prop :=
  let files := firstn (idx + 1) profraw_files in
  match s with
  | AtMerge =>
      option_map exn_of (profdata_fault t files) = Some e
      \/ (profdata_fault t files = None /\ llvm_profdata t files = false
          /\ e = CalledProcessError)
  | AtReport =>
      option_map exn_of (cov_fault t files) = Some e
      \/ (cov_fault t files = None /\ llvm_cov t files = None
          /\ e = CalledProcessError)
  | AtQueueLookup => List.length queue_files <= idx /\ e = IndexError
  | AtTimeShift => (float_limit <= Z.abs time_shift)%Z /\ e = OverflowError
  | AtUnlink => option_map exn_of (unlink_fault t idx) = Some e
  end.

(** Both tools can be started and exit with status zero on every set of
    profiles, the report is text, and every merged database can be
    removed. *)
Definition tools_succeed (t : tools) : Prop :=
  (forall files,
      profdata_fault t files = None /\ llvm_profdata t files = true
      /\ cov_fault t files = None /\ llvm_cov t files <> None)
  /\ forall idx, unlink_fault t idx = None.

(** The time shift can be converted to a [float]. *)
Definition fits_float (time_shift : Z) : Prop := (Z.abs time_shift < float_limit)%Z.

(** What a run adds to [runs_data]: its samples when its analysis
    returns, nothing when it raises. *)
Definition contribution (w : world) (harness_bin : string) (time_shifts : dict Z)
  (run : string) : dict (list sample) :=
  match dict_get run time_shifts with
  | Some time_shift =>
      match analyze w harness_bin run time_shift with
      | Ok data => [(run, data)]
      | Raise _ => []
      end
  | None => []
  end.

(** The entry of [runs_data] is drawn: it has at least one sample. *)
Definition drawn (item : string * list sample) : bool :=
  match snd item with
  | [] => false
  | _ :: _ => true
  end.

(** [labels.get(run_name, run_name)]. *)
Definition label_for (labels : dict string) (run_name : string) : string :=
  match dict_get run_name labels with
  | Some l => l
  | None => run_name
  end.

End SpecMore.

Import SpecMore.

(** ** Predicates used for seed.py *)

Module SeedSpec.

Import Seed.

(** A character at which [str.splitlines] ends a line. *)
Definition line_end (c : N) : bool := (c =? 13)%N || linebreak c.

(** A byte, or a character, below 128: plain ASCII. *)
Definition plain (c : N) : bool := (c <? 128)%N.

(** A line holds no line boundary. *)
Definition one_line (l : str) : Prop := Forall (fun c => line_end c = false) l.

(** A Unicode scalar value: a code point up to U+10FFFF that is not a
    surrogate.  These are the code points that UTF-8 can encode. *)
Definition scalar (c : N) : Prop :=
  (c < 55296 \/ (57343 < c /\ c <= 1114111))%N.

(** The lines that the encoder gives for an entry of the queue. *)
Definition lines_of (enc : encoder) (path : str * entry) : list str :=
  match snd path with
  | RegularFile payload => fst (run_encoder enc payload)
  | NotAFile => []
  end.

(** What the encoder makes [run_encoder] write to the error stream for an
    entry of the queue. *)
Definition warnings_of (enc : encoder) (path : str * entry) : list str :=
  match snd path with
  | RegularFile payload => snd (run_encoder enc payload)
  | NotAFile => []
  end.

(** The entry yields a seed file: it is a regular file for which the
    encoder gives at least one line. *)
Definition productive (enc : encoder) (path : str * entry) : bool :=
  match lines_of enc path with
  | [] => false
  | _ :: _ => true
  end.

(** The file that [main] writes for a productive entry. *)
Definition seed_file (enc : encoder) (path : str * entry) : str * str :=
  (sanitize (fst path), join [10%N] (lines_of enc path) ++ [10%N]).


(** Two code points that [sanitize] sends to the same one: equal ones, or
    a colon and an underscore. *)
Definition alike (x y : N) : Prop :=
  x = y \/ (x = 58 /\ y = 95)%N \/ (x = 95 /\ y = 58)%N.

End SeedSpec.

Import SeedSpec.

(** ** Concrete inputs *)

Module Examples.

(** An aggregate row with 40 branches, 15 of them missed. *)
Definition report_ok : string :=
  "TOTAL 100 20 80.00% 10 2 80.00% 300 50 83.33% 40 15 62.50%".

(** A truncated aggregate row. *)
Definition report_cut : string := "TOTAL x".

(** A report whose last aggregate row is truncated and whose row before
    it is complete. *)
Definition report_two_rows : string :=
  (report_ok ++ String newline report_cut)%string.

(** Tools that always succeed and always print [report_ok]. *)
Definition tools_steady : tools :=
  mkTools (fun _ => true) (fun _ => Some report_ok)
          (fun _ => None) (fun _ => None) (fun _ => None).

(** Tools that always succeed; the report is complete for a single
    profile and truncated for more. *)
Definition tools_cut : tools :=
  mkTools (fun _ => true)
          (fun files => if List.length files <=? 1 then Some report_ok else Some report_cut)
          (fun _ => None) (fun _ => None) (fun _ => None).

Definition queue_names : list string :=
  ["id:000,time:500,x"; "id:001,time:100,y"; "id:002,time:9999,z"].

Definition queue_scanned : list queue_file :=
  [((100 # 1000)%Q, mkPath "q" "id:001,time:100,y");
   ((500 # 1000)%Q, mkPath "q" "id:000,time:500,x");
   ((9999 # 1000)%Q, mkPath "q" "id:002,time:9999,z")].

Definition profraw_names : list string :=
  ["000001.profraw"; "000000.profraw"; "000002.profraw"].

Definition encoder_failing : Seed.encoder :=
  fun _ => Seed.mkProc 2 [] (list_byte_of_string "boom").

Definition encoder_silent : Seed.encoder :=
  fun _ => Seed.mkProc 0 [] [].

End Examples.

Import Examples.

(** ** Concrete inputs for [main] *)

Module MainExamples.

(** One run with the three queue files of [queue_names], one whose queue
    holds no queue file, and no other run directory. *)
Definition world_three : world :=
  mkWorld (fun run => (run ++ "/default/queue")%string)
          (fun run => if String.eqb run "good" then Some queue_names
                      else if String.eqb run "bare" then Some ["README.txt"]
                      else None)
          (fun _ => true)
          tools_steady
          (fun _ => None)
          (fun _ => None).

Definition runs_three : list string := ["good"; "bare"; "gone"].

Definition shifts_three : dict Z := dict_of [("good", 0%Z); ("bare", 0%Z); ("gone", 0%Z)].

Definition args_two_shifts : args :=
  mkArgs "good:bare:gone" None (Some "0:5") "harness" true.

Definition args_plain : args :=
  mkArgs "good:bare:gone" None None "harness" true.

End MainExamples.

Import MainExamples.

(** * Proofs *)

(** ** Checkpoint selection *)

(** C7: a run of 1500 profiles is sampled at 0, 10, 20, 50, 100, 200, 500,
    1000 and 1499; a run of 5 profiles is sampled at 0 and 4. *)
Theorem sample_points_examples :
  sample_points 1500 = [0; 10; 20; 50; 100; 200; 500; 1000; 1499]
  /\ sample_points 5 = [0; 4].
Proof. split; vm_compute; reflexivity. Qed.

(** The fixed checkpoints below [n], then the last index. *)
Lemma sample_points_eq (n : nat) :
  1 <= n ->
  sample_points n
  = filter (fun i => i <? n) [0; 10; 20; 50; 100; 200; 500; 1000] ++ [n - 1].
Proof.
  intros Hn. unfold sample_points.
  change [0; 10; 20; 50; 100; 200; 500; 1000; n - 1]
    with ([0; 10; 20; 50; 100; 200; 500; 1000] ++ [n - 1]).
  rewrite filter_app. cbn [filter].
  assert (Hlast : (n - 1 <? n) = true) by (apply Nat.ltb_lt; lia).
  rewrite Hlast, existsb_app. cbn [existsb].
  rewrite Nat.eqb_refl, orb_true_l, orb_true_r. reflexivity.
Qed.

Lemma sample_points_in_range (n i : nat) :
  1 <= n -> In i (sample_points n) -> i < n.
Proof.
  intros Hn Hi. rewrite (sample_points_eq n Hn) in Hi.
  apply in_app_or in Hi. destruct Hi as [Hi | [Hi | []]].
  - apply filter_In in Hi. destruct Hi as [_ Hi]. now apply Nat.ltb_lt.
  - lia.
Qed.

Lemma filter_strongly_sorted {A : Type} (R : A -> A -> Prop) (f : A -> bool) (l : list A) :
  StronglySorted R l -> StronglySorted R (filter f l).
Proof.
  induction 1 as [| a l Hl IH Ha]; cbn.
  - constructor.
  - destruct (f a).
    + constructor; [assumption |].
      rewrite Forall_forall in *. intros x Hx.
      apply filter_In in Hx. apply Ha, Hx.
    + assumption.
Qed.

Lemma strongly_sorted_snoc {A : Type} (R : A -> A -> Prop) (l : list A) (z : A) :
  StronglySorted R l -> Forall (fun x => R x z) l -> StronglySorted R (l ++ [z]).
Proof.
  induction 1 as [| a l Hl IH Ha]; intros Hz; cbn.
  - repeat constructor.
  - inversion Hz as [| ? ? Haz Hlz]; subst.
    constructor; [now apply IH |].
    apply Forall_app. split; [assumption | now constructor].
Qed.

(** The checkpoints never decrease, contain 0 and end with the last index. *)
Lemma sample_points_ascending (n : nat) :
  1 <= n -> StronglySorted le (sample_points n).
Proof.
  intros Hn. rewrite (sample_points_eq n Hn).
  apply strongly_sorted_snoc.
  - apply filter_strongly_sorted.
    repeat (constructor; [| repeat (constructor; try lia)]). constructor.
  - apply Forall_forall. intros x Hx.
    apply filter_In in Hx. destruct Hx as [_ Hx].
    apply Nat.ltb_lt in Hx. lia.
Qed.

Lemma sample_points_ends (n : nat) :
  1 <= n -> In 0 (sample_points n) /\ In (n - 1) (sample_points n).
Proof.
  intros Hn. rewrite (sample_points_eq n Hn). split.
  - apply in_or_app. left. cbn [filter].
    assert (H0 : (0 <? n) = true) by (apply Nat.ltb_lt; lia).
    rewrite H0. now left.
  - apply in_or_app. right. now left.
Qed.

Lemma strongly_sorted_snoc_inv {A : Type} (R : A -> A -> Prop) (l : list A) (z : A) :
  StronglySorted R (l ++ [z]) -> Forall (fun x => R x z) l.
Proof.
  induction l as [| a l IH]; cbn; intros H; [constructor |].
  inversion H as [| ? ? Hl Ha]; subst.
  constructor; [| now apply IH].
  rewrite Forall_forall in Ha. apply Ha, in_or_app. right. now left.
Qed.

(** The checkpoints are strictly ascending exactly when the last index is
    not one of the fixed checkpoints. *)
Lemma sample_points_strict_iff (n : nat) :
  1 <= n ->
  StronglySorted lt (sample_points n)
  <-> ~ In (n - 1) [0; 10; 20; 50; 100; 200; 500; 1000].
Proof.
  intros Hn. rewrite (sample_points_eq n Hn). split.
  - intros Hs Hin.
    assert (Hf : In (n - 1) (filter (fun i => i <? n) [0; 10; 20; 50; 100; 200; 500; 1000])).
    { apply filter_In. split; [exact Hin | apply Nat.ltb_lt; lia]. }
    apply strongly_sorted_snoc_inv in Hs. rewrite Forall_forall in Hs.
    specialize (Hs (n - 1) Hf). lia.
  - intros Hnot. apply strongly_sorted_snoc.
    + apply filter_strongly_sorted.
      repeat (constructor; [| repeat (constructor; try lia)]). constructor.
    + apply Forall_forall. intros x Hx.
      apply filter_In in Hx. destruct Hx as [Hin Hx].
      apply Nat.ltb_lt in Hx.
      assert (x <> n - 1) by (intros ->; contradiction). lia.
Qed.

(** C1: with a single profile the checkpoints are [0; 0], and with
    eleven profiles they are [0; 10; 10]: the last index is listed twice
    whenever it is one of the fixed checkpoints, so the list has a
    duplicate and is not strictly ascending. *)
Theorem sample_points_repeats_last :
  sample_points 1 = [0; 0]
  /\ sample_points 11 = [0; 10; 10]
  /\ ~ NoDup (sample_points 1)
  /\ ~ StronglySorted lt (sample_points 1).
Proof.
  repeat split.
  - intros H. inversion H as [| ? ? Hin _]; subst. apply Hin. now left.
  - intros H. inversion H as [| ? ? _ Hall]; subst.
    inversion Hall as [| ? ? Hlt _]; subst. lia.
Qed.

(** ** The sampling loop *)

Lemma adjust_time_ge_1 (time_sec : Q) (time_shift : Z) :
  (1 <= adjust_time time_sec time_shift)%Q.
Proof.
  unfold adjust_time, Qltb.
  destruct (Qle_bool 1 (time_sec + inject_Z time_shift)) eqn:E; cbn.
  - now apply Qle_bool_iff.
  - apply Qle_refl.
Qed.

(** A run of the loop that returns has appended one sample per
    checkpoint, in order, and has made the three calls of each checkpoint. *)
Lemma sample_loop_ok (t : tools) (harness_bin : string) (profraw_files : list Path)
  (queue_files : list queue_file) (time_shift : Z) (points : list nat) :
  forall (results out : list sample) (tr tr' : list call),
    sample_loop t harness_bin profraw_files queue_files time_shift points results tr
    = (Ok out, tr') ->
    tr' = tr ++ flat_map (checkpoint_calls harness_bin profraw_files) points
    /\ exists news,
         out = results ++ news
         /\ Forall2 (sample_at t profraw_files queue_files time_shift) points news.
Proof.
  induction points as [| idx rest IH]; intros results out tr tr' H.
  - cbn in H. injection H as <- <-. rewrite !app_nil_r.
    split; [reflexivity |]. exists []. split; [now rewrite app_nil_r | constructor].
  - cbn [sample_loop] in H. unfold bind, run, lift in H.
    destruct (profdata_fault t (firstn (idx + 1) profraw_files)); [discriminate |].
    destruct (llvm_profdata t (firstn (idx + 1) profraw_files)); [| discriminate].
    destruct (cov_fault t (firstn (idx + 1) profraw_files)); [discriminate |].
    destruct (llvm_cov t (firstn (idx + 1) profraw_files)) as [stdout |] eqn:Hcov;
      [| discriminate].
    destruct (parse_coverage_report stdout) as [branches | e] eqn:Hparse; [| discriminate].
    unfold getitem in H.
    destruct (nth_error queue_files idx) as [q |] eqn:Hq; [| discriminate].
    destruct (float_of_int time_shift); [| discriminate].
    destruct (unlink_fault t idx); [discriminate |].
    apply IH in H. destruct H as (-> & news & -> & Hnews). split.
    + cbn [flat_map checkpoint_calls]. now rewrite <- !app_assoc.
    + exists ((adjust_time (fst q) time_shift, fst branches, snd branches) :: news).
      split; [now rewrite <- app_assoc |].
      constructor; [| assumption].
      exists stdout, branches, q. repeat split; assumption.
Qed.

Lemma filter_none {A : Type} (f : A -> bool) (l : list A) :
  (forall x, In x l -> f x = false) -> filter f l = [].
Proof.
  induction l as [| a l IH]; intros H; cbn; [reflexivity |].
  rewrite (H a (or_introl eq_refl)). apply IH. intros x Hx. apply H. now right.
Qed.

Lemma insert_length {A : Type} (leb : A -> A -> bool) (x : A) (l : list A) :
  List.length (insert leb x l) = S (List.length l).
Proof.
  induction l as [| y l IH]; cbn; [reflexivity |].
  destruct (leb x y); cbn; [reflexivity | now rewrite IH].
Qed.

Lemma sorted_length {A : Type} (leb : A -> A -> bool) (l : list A) :
  List.length (sorted leb l) = List.length l.
Proof.
  induction l as [| x l IH]; cbn; [reflexivity |].
  now rewrite insert_length, IH.
Qed.

(** What [get_cumulative_coverage] returns is one sample per checkpoint. *)
Lemma get_cumulative_coverage_ok (profraw_dir : string) (entries : list string)
  (t : tools) (harness_bin : string) (queue_files : list queue_file) (time_shift : Z)
  (tr tr' : list call) (samples : list sample) :
  get_cumulative_coverage profraw_dir entries t harness_bin queue_files time_shift tr
  = (Ok samples, tr') ->
  let profraw_files :=
    sorted path_leb (glob (fun n => endswith n ".profraw") profraw_dir entries) in
  (profraw_files = [] /\ samples = [] /\ tr' = tr)
  \/ (1 <= List.length profraw_files
      /\ tr' = tr ++ flat_map (checkpoint_calls harness_bin profraw_files)
                      (sample_points (List.length profraw_files))
      /\ Forall2 (sample_at t profraw_files queue_files time_shift)
           (sample_points (List.length profraw_files)) samples).
Proof.
  unfold get_cumulative_coverage. cbv zeta.
  destruct (sorted path_leb (glob (fun n => endswith n ".profraw") profraw_dir entries))
    as [| p ps]; intros H.
  - left. cbn in H. injection H as <- <-. auto.
  - right. split; [cbn; lia |].
    apply sample_loop_ok in H. destruct H as (-> & news & -> & H). auto.
Qed.

(** C6: the time of every sample that the sampler returns is at least 1,
    whatever the queue times and the time shift are. *)
Theorem adjusted_time_at_least_1 (profraw_dir : string) (entries : list string)
  (t : tools) (harness_bin : string) (queue_files : list queue_file) (time_shift : Z)
  (tr tr' : list call) (samples : list sample) :
  get_cumulative_coverage profraw_dir entries t harness_bin queue_files time_shift tr
  = (Ok samples, tr') ->
  Forall (fun s => (1 <= sample_time s)%Q) samples.
Proof.
  intros H. apply get_cumulative_coverage_ok in H.
  destruct H as [(_ & -> & _) | (_ & _ & H)]; [constructor |].
  induction H as [| idx s points samples Hs _ IH]; constructor; [| exact IH].
  destruct Hs as (stdout & branches & q & _ & _ & _ & ->).
  apply adjust_time_ge_1.
Qed.

(** C10: when no entry of the profile directory is a [.profraw] file the
    sampler returns the empty list and the trace of calls is unchanged: no
    merge and no report is run. *)
Theorem no_profiles_no_calls (profraw_dir : string) (entries : list string)
  (t : tools) (harness_bin : string) (queue_files : list queue_file) (time_shift : Z)
  (tr : list call) :
  (forall n, In n entries -> endswith n ".profraw" = false) ->
  get_cumulative_coverage profraw_dir entries t harness_bin queue_files time_shift tr
  = (Ok [], tr).
Proof.
  intros H. unfold get_cumulative_coverage, glob.
  rewrite (filter_none _ entries H). reflexivity.
Qed.

(** ** The seed deriver *)

Import Seed.

Lemma run_encoder_failure (enc : encoder) (payload : list Byte.byte) :
  returncode (enc payload) <> 0%Z ->
  run_encoder enc payload
  = ([], warning (returncode (enc payload))
         :: match stderr (enc payload) with
            | [] => []
            | _ :: _ => [decode (stderr (enc payload))]
            end).
Proof.
  intros H. unfold run_encoder.
  apply Z.eqb_neq in H. now rewrite H.
Qed.

Lemma run_encoder_empty (enc : encoder) (payload : list Byte.byte) :
  returncode (enc payload) = 0%Z -> stdout (enc payload) = [] ->
  run_encoder enc payload = ([], []).
Proof.
  intros H0 Hout. unfold run_encoder. rewrite H0, Hout. reflexivity.
Qed.

(** *** Arithmetic of the bytes of a sequence *)

Lemma low6_mod (b : N) : low6 b = (b mod 64)%N.
Proof. unfold low6. change 63%N with (N.ones 6). now rewrite N.land_ones. Qed.

Lemma land31_mod (b : N) : N.land b 31 = (b mod 32)%N.
Proof. change 31%N with (N.ones 5). now rewrite N.land_ones. Qed.

Lemma land15_mod (b : N) : N.land b 15 = (b mod 16)%N.
Proof. change 15%N with (N.ones 4). now rewrite N.land_ones. Qed.

Lemma land7_mod (b : N) : N.land b 7 = (b mod 8)%N.
Proof. change 7%N with (N.ones 3). now rewrite N.land_ones. Qed.

Ltac bytes_arith :=
  rewrite ?low6_mod, ?land31_mod, ?land15_mod, ?land7_mod, ?N.shiftl_mul_pow2;
  change (2 ^ 6)%N with 64%N; change (2 ^ 12)%N with 4096%N;
  change (2 ^ 18)%N with 262144%N;
  unfold scalar; zify; Z.to_euclidean_division_equations; lia.

Lemma continuation_range (b : N) :
  continuation b = true -> (128 <= b <= 191)%N.
Proof.
  unfold continuation. intros H. apply andb_true_iff in H.
  destruct H as [H1 H2]. apply N.leb_le in H1. apply N.leb_le in H2. lia.
Qed.

Lemma second_ok_range (b0 b1 : N) :
  second_ok b0 b1 = true ->
  (128 <= b1 <= 191
   /\ (b0 = 224 -> 160 <= b1) /\ (b0 = 237 -> b1 <= 159)
   /\ (b0 = 240 -> 144 <= b1) /\ (b0 = 244 -> b1 <= 143))%N.
Proof.
  unfold second_ok, continuation.
  destruct (N.eqb_spec b0 224); [| destruct (N.eqb_spec b0 237);
    [| destruct (N.eqb_spec b0 240); [| destruct (N.eqb_spec b0 244)]]];
    intros H; apply andb_true_iff in H; destruct H as [H1 H2];
    apply N.leb_le in H1; apply N.leb_le in H2; lia.
Qed.

(** *** What decoding keeps of the bytes *)

Lemma plain_high (b : N) : (128 <= b)%N -> plain b = false.
Proof. intros H. unfold plain. apply N.ltb_ge. exact H. Qed.

Lemma two_bytes_high (b0 b1 : N) :
  (194 <= b0 < 224)%N -> continuation b1 = true ->
  plain (N.shiftl (N.land b0 31) 6 + low6 b1) = false.
Proof.
  intros H0 H1. apply continuation_range in H1. apply plain_high. bytes_arith.
Qed.

Lemma three_bytes_high (b0 b1 b2 : N) :
  (224 <= b0 < 240)%N -> second_ok b0 b1 = true -> continuation b2 = true ->
  plain (N.shiftl (N.land b0 15) 12 + N.shiftl (low6 b1) 6 + low6 b2) = false.
Proof.
  intros H0 H1 H2. apply second_ok_range in H1. apply continuation_range in H2.
  destruct H1 as (H1 & Ha & Hb & _). apply plain_high. bytes_arith.
Qed.

Lemma four_bytes_high (b0 b1 b2 b3 : N) :
  (240 <= b0 < 245)%N -> second_ok b0 b1 = true ->
  continuation b2 = true -> continuation b3 = true ->
  plain (N.shiftl (N.land b0 7) 18 + N.shiftl (low6 b1) 12
         + N.shiftl (low6 b2) 6 + low6 b3) = false.
Proof.
  intros H0 H1 H2 H3. apply second_ok_range in H1.
  apply continuation_range in H2. apply continuation_range in H3.
  destruct H1 as (H1 & _ & _ & Hc & Hd). apply plain_high. bytes_arith.
Qed.

Lemma continuation_high (b : N) : continuation b = true -> plain b = false.
Proof. intros H. apply continuation_range in H. apply plain_high. lia. Qed.

Lemma second_ok_high (b0 b1 : N) : second_ok b0 b1 = true -> plain b1 = false.
Proof. intros H. apply second_ok_range in H. apply plain_high. lia. Qed.

(** Decoding keeps the bytes below 128 as they are and in their order:
    every other character of the result stands for bytes from 128 on. *)
Lemma utf8_replace_plain (bs : list N) :
  filter plain (utf8_replace bs) = filter plain bs.
Proof.
  assert (H : forall n l, List.length l <= n ->
                          filter plain (utf8_replace l) = filter plain l).
  { induction n as [| n IH]; intros l Hlen.
    - destruct l; [reflexivity | cbn in Hlen; lia].
    - destruct l as [| b0 r0]; [reflexivity |].
      cbn [List.length] in Hlen. cbn [utf8_replace].
      assert (IH0 : filter plain (utf8_replace r0) = filter plain r0) by (apply IH; lia).
      assert (Hrep : plain replacement = false) by reflexivity.
      destruct (N.ltb_spec b0 128) as [Hlow | Hhigh].
      { cbn [filter]. now rewrite IH0. }
      pose proof (plain_high b0 Hhigh) as Hb0.
      destruct (N.ltb_spec b0 194).
      { cbn [filter]. now rewrite Hrep, Hb0, IH0. }
      destruct (N.ltb_spec b0 224).
      { destruct r0 as [| b1 r1]; [cbn [filter]; now rewrite Hrep, Hb0 |].
        destruct (continuation b1) eqn:C1.
        - cbn [filter].
          rewrite (two_bytes_high b0 b1 ltac:(lia) C1), Hb0, (continuation_high b1 C1).
          apply IH. cbn [List.length] in *. lia.
        - cbn [filter] in *. now rewrite Hrep, Hb0, IH0. }
      destruct (N.ltb_spec b0 240).
      { destruct r0 as [| b1 r1]; [cbn [filter]; now rewrite Hrep, Hb0 |].
        destruct (second_ok b0 b1) eqn:S1.
        2:{ cbn [filter] in *. now rewrite Hrep, Hb0, IH0. }
        pose proof (second_ok_high b0 b1 S1) as Hb1.
        destruct r1 as [| b2 r2]; [cbn [filter]; now rewrite Hrep, Hb0, Hb1 |].
        destruct (continuation b2) eqn:C2.
        - cbn [filter].
          rewrite (three_bytes_high b0 b1 b2 ltac:(lia) S1 C2), Hb0, Hb1,
            (continuation_high b2 C2).
          apply IH. cbn [List.length] in *. lia.
        - cbn [filter]. rewrite Hrep, Hb0, Hb1.
          change (filter plain (utf8_replace (b2 :: r2)) = filter plain (b2 :: r2)).
          apply IH. cbn [List.length] in *. lia. }
      destruct (N.ltb_spec b0 245).
      2:{ cbn [filter]. now rewrite Hrep, Hb0, IH0. }
      destruct r0 as [| b1 r1]; [cbn [filter]; now rewrite Hrep, Hb0 |].
      destruct (second_ok b0 b1) eqn:S1.
      2:{ cbn [filter] in *. now rewrite Hrep, Hb0, IH0. }
      pose proof (second_ok_high b0 b1 S1) as Hb1.
      destruct r1 as [| b2 r2]; [cbn [filter]; now rewrite Hrep, Hb0, Hb1 |].
      destruct (continuation b2) eqn:C2.
      2:{ cbn [filter]. rewrite Hrep, Hb0, Hb1.
          change (filter plain (utf8_replace (b2 :: r2)) = filter plain (b2 :: r2)).
          apply IH. cbn [List.length] in *. lia. }
      pose proof (continuation_high b2 C2) as Hb2.
      destruct r2 as [| b3 r3]; [cbn [filter]; now rewrite Hrep, Hb0, Hb1, Hb2 |].
      destruct (continuation b3) eqn:C3.
      + cbn [filter].
        rewrite (four_bytes_high b0 b1 b2 b3 ltac:(lia) S1 C2 C3), Hb0, Hb1, Hb2,
          (continuation_high b3 C3).
        apply IH. cbn [List.length] in *. lia.
      + cbn [filter]. rewrite Hrep, Hb0, Hb1, Hb2.
        change (filter plain (utf8_replace (b3 :: r3)) = filter plain (b3 :: r3)).
        apply IH. cbn [List.length] in *. lia. }
  apply (H (List.length bs)). lia.
Qed.

(** Bytes that are all below 128 are decoded one character per byte. *)
Lemma utf8_replace_verbatim (bs : list N) :
  forallb plain bs = true -> utf8_replace bs = bs.
Proof.
  induction bs as [| b bs IH]; cbn [forallb utf8_replace]; [reflexivity |].
  intros H. apply andb_true_iff in H. destruct H as [Hb Hbs].
  unfold plain in Hb. now rewrite Hb, (IH Hbs).
Qed.

(** Decoding bytes never gives the empty string. *)
Lemma utf8_replace_nonempty (b0 : N) (r0 : list N) : utf8_replace (b0 :: r0) <> [].
Proof.
  cbn [utf8_replace].
  repeat match goal with
         | |- context [if ?c then _ else _] => destruct c
         | |- context [match ?l with [] => _ | _ :: _ => _ end] => is_var l; destruct l
         end; discriminate.
Qed.

Lemma lit_app (a b : string) : lit (a ++ b) = lit a ++ lit b.
Proof.
  unfold lit. induction a as [| c a IH]; cbn; [reflexivity |]. now rewrite IH.
Qed.

(** The warning is the line of the format string, with the exit code in
    decimal. *)
Lemma warning_text (code : Z) :
  warning code
  = lit ("[WARN] encoder failed (code " ++ NilZero.string_of_int (Z.to_int code) ++ ")")
    ++ [10%N].
Proof.
  unfold warning, str_of_Z. now rewrite !lit_app, <- !app_assoc.
Qed.

(** C8: when the encoder exits non-zero on a corpus file, the line
    [[WARN] encoder failed (code N)], with the exit code [N] in decimal,
    is written to the error stream, followed, when the encoder wrote to
    its standard error, by that diagnostic text decoded.  The decoded text
    is not empty, it holds every byte below 128 of the diagnostic as the
    same character and in the same order, and it is the diagnostic
    character for character when all its bytes are below 128.  No file is
    written, neither counter moves, and the loop goes on with the
    remaining files. *)
Theorem encoder_failure_skips_file (enc : encoder) (st : state) (name : str)
  (payload : list Byte.byte) (rest : list (str * entry)) :
  returncode (enc payload) <> 0%Z ->
  let proc := enc payload in
  let st' := loop_body enc st (name, RegularFile payload) in
  let code := NilZero.string_of_int (Z.to_int (returncode proc)) in
  let diagnostic := map Byte.to_N (stderr proc) in
  let text := decode (stderr proc) in
  err st' = err st
            ++ (lit ("[WARN] encoder failed (code " ++ code ++ ")") ++ [10%N])
               :: match stderr proc with
                  | [] => []
                  | _ :: _ => [text]
                  end
  /\ (stderr proc <> [] -> text <> [])
  /\ filter plain text = filter plain diagnostic
  /\ (forallb plain diagnostic = true -> text = diagnostic)
  /\ written st' = written st
  /\ total_written st' = total_written st
  /\ file_written st' = file_written st
  /\ main_loop enc ((name, RegularFile payload) :: rest) st = main_loop enc rest st'.
Proof.
  intros H proc st' code diagnostic text.
  assert (E : st' = mkState (err st ++ warning (returncode proc)
                                       :: match stderr proc with
                                          | [] => []
                                          | _ :: _ => [text]
                                          end)
                            (written st) (total_written st) (file_written st)).
  { unfold st', loop_body. cbn [snd fst].
    now rewrite (run_encoder_failure enc payload H). }
  split; [| split; [| split; [| split; [| split; [| split; [| split]]]]]];
    try (rewrite E; reflexivity).
  - rewrite E. cbn [err]. now rewrite warning_text.
  - unfold text, decode. destruct (stderr proc) as [| b bs]; [congruence |].
    intros _. cbn [map]. apply utf8_replace_nonempty.
  - apply utf8_replace_plain.
  - apply utf8_replace_verbatim.
  - reflexivity.
Qed.

(** C9: when the encoder exits with code zero and prints nothing, the
    state is left as it was: no file is written and neither counter moves.
    The files written and the counters are then the same as after a
    failing encoder. *)
Theorem empty_output_skips_file (enc : encoder) (st : state) (name : str)
  (payload : list Byte.byte) (rest : list (str * entry)) :
  returncode (enc payload) = 0%Z ->
  stdout (enc payload) = [] ->
  let st' := loop_body enc st (name, RegularFile payload) in
  written st' = written st
  /\ total_written st' = total_written st
  /\ file_written st' = file_written st
  /\ main_loop enc ((name, RegularFile payload) :: rest) st = main_loop enc rest st'
  /\ forall failing : encoder,
       returncode (failing payload) <> 0%Z ->
       let st'' := loop_body failing st (name, RegularFile payload) in
       written st'' = written st'
       /\ total_written st'' = total_written st'
       /\ file_written st'' = file_written st'.
Proof.
  intros H0 Hout st'.
  assert (E : st' = mkState (err st ++ []) (written st) (total_written st) (file_written st)).
  { unfold st', loop_body. cbn [snd fst].
    now rewrite (run_encoder_empty enc payload H0 Hout). }
  split; [| split; [| split; [| split]]]; try (rewrite E; reflexivity).
  - reflexivity.
  - intros failing H st''. rewrite E. unfold st'', loop_body. cbn [snd fst].
    rewrite (run_encoder_failure failing payload H). cbn. auto.
Qed.

(** ** The report parser *)

(** [int] raises nothing but [ValueError]. *)
Lemma int_raises (s : string) (e : exn) : int s = Raise e -> e = ValueError.
Proof.
  unfold int.
  match goal with
  | |- context [match ?b with Some _ => _ | None => _ end] => destruct b
  end.
  - discriminate.
  - intros H. injection H as <-. reflexivity.
Qed.

(** One turn of the loop either returns the branches of a usable row or
    moves on to the next line. *)
Lemma scan_report_step (line : string) :
  (exists total missed,
      usable_row line total missed
      /\ forall rest, scan_report (line :: rest) = Ok ((total - missed)%Z, total))
  \/ (unusable line /\ forall rest, scan_report (line :: rest) = scan_report rest).
Proof.
  cbn [scan_report].
  destruct (startswith line "TOTAL") eqn:Hstart.
  2:{ right. split; [| reflexivity]. intros t m (H & _). congruence. }
  destruct (13 <=? List.length (split line)) eqn:Hlen.
  2:{ right. split; [| reflexivity]. intros t m (_ & H & _).
      apply Nat.leb_gt in Hlen. lia. }
  apply Nat.leb_le in Hlen.
  unfold read_branches, getitem.
  destruct (nth_error (split line) 10) as [p10 |] eqn:H10; cbn [rbind].
  2:{ right. split; [| reflexivity].
      intros t m (_ & _ & q10 & q11 & Hq & _). congruence. }
  destruct (int p10) as [total | e10] eqn:Hi10; cbn [rbind].
  2:{ right. split.
      - intros t m (_ & _ & q10 & q11 & Hq10 & _ & Hq & _). congruence.
      - apply int_raises in Hi10. now subst e10. }
  destruct (nth_error (split line) 11) as [p11 |] eqn:H11; cbn [rbind].
  2:{ right. split; [| reflexivity].
      intros t m (_ & _ & q10 & q11 & _ & Hq & _). congruence. }
  destruct (int p11) as [missed | e11] eqn:Hi11; cbn [rbind].
  2:{ right. split.
      - intros t m (_ & _ & q10 & q11 & _ & Hq11 & _ & Hq). congruence.
      - apply int_raises in Hi11. now subst e11. }
  left. exists total, missed. split; [| reflexivity].
  repeat split; try assumption. exists p10, p11. auto.
Qed.

Lemma usable_row_unique (line : string) (t m t' m' : Z) :
  usable_row line t m -> usable_row line t' m' -> t = t' /\ m = m'.
Proof.
  intros (_ & _ & p10 & p11 & H10 & H11 & Hi10 & Hi11)
         (_ & _ & q10 & q11 & G10 & G11 & Gi10 & Gi11).
  split; congruence.
Qed.

Lemma scan_report_total (lines : list string) :
  exists r, scan_report lines = Ok r.
Proof.
  induction lines as [| line rest IH]; [now exists (0%Z, 0%Z) |].
  destruct (scan_report_step line) as [(t & m & _ & H) | (_ & H)]; rewrite H.
  - now exists ((t - m)%Z, t).
  - exact IH.
Qed.

Lemma scan_report_skip (before rest : list string) :
  Forall unusable before -> scan_report (before ++ rest) = scan_report rest.
Proof.
  induction 1 as [| line before Hline _ IH]; [reflexivity |].
  cbn [app]. destruct (scan_report_step line) as [(t & m & Hu & _) | (_ & H)].
  - destruct (Hline t m Hu).
  - now rewrite H.
Qed.

(** C5: the parser never raises.  Its result is read off the first line,
    in reverse order, that is a usable aggregate row: lines before it that
    begin with the marker but cannot be read are passed over.  With no
    usable row at all the result is (0, 0). *)
Theorem parse_coverage_report_first_usable (report_text : string) :
  (exists r, parse_coverage_report report_text = Ok r)
  /\ (forall before line after total missed,
         rev (report_lines report_text) = before ++ line :: after ->
         Forall unusable before ->
         usable_row line total missed ->
         parse_coverage_report report_text = Ok ((total - missed)%Z, total))
  /\ (Forall unusable (report_lines report_text) ->
      parse_coverage_report report_text = Ok (0%Z, 0%Z)).
Proof.
  unfold parse_coverage_report. split; [apply scan_report_total | split].
  - intros before line after total missed -> Hbefore Hline.
    rewrite (scan_report_skip before _ Hbefore).
    destruct (scan_report_step line) as [(t & m & Hu & H) | (Hu & _)].
    + rewrite H. destruct (usable_row_unique _ _ _ _ _ Hu Hline) as [-> ->]. reflexivity.
    + destruct (Hu total missed Hline).
  - intros H. apply Forall_rev in H.
    rewrite <- (app_nil_r (rev (report_lines report_text))).
    now rewrite (scan_report_skip _ [] H).
Qed.

(** ** The sampler returns *)

Lemma sample_loop_returns (t : tools) (harness_bin : string) (profraw_files : list Path)
  (queue_files : list queue_file) (time_shift : Z) (points : list nat) :
  tools_succeed t ->
  fits_float time_shift ->
  (forall idx, In idx points -> idx < List.length queue_files) ->
  forall results tr,
    exists out tr',
      sample_loop t harness_bin profraw_files queue_files time_shift points results tr
      = (Ok out, tr').
Proof.
  intros [Htools Hunlink] Hshift.
  induction points as [| idx rest IH]; intros Hok results tr.
  - exists results, tr. reflexivity.
  - destruct (Htools (firstn (idx + 1) profraw_files)) as (Hpf & Hmerge & Hcf & Hcov).
    pose proof (Hok idx (or_introl eq_refl)) as Hidx.
    cbn [sample_loop]. unfold bind, run, lift. rewrite Hpf, Hmerge, Hcf.
    destruct (llvm_cov t (firstn (idx + 1) profraw_files)) as [stdout |]; [| congruence].
    destruct (scan_report_total (rev (report_lines stdout))) as (branches & Hparse).
    unfold parse_coverage_report. rewrite Hparse.
    unfold getitem.
    destruct (nth_error queue_files idx) as [q |] eqn:Hq.
    + unfold float_of_int. unfold fits_float in Hshift.
      rewrite (proj2 (Z.ltb_lt _ _) Hshift), Hunlink.
      apply IH. intros i Hi. apply Hok. now right.
    + apply nth_error_None in Hq. lia.
Qed.

(** When both tools succeed on every prefix of the profiles, the time
    shift fits a [float] and the queue has an entry for every profile, the
    sampler returns its samples. *)
Lemma get_cumulative_coverage_returns (profraw_dir : string) (entries : list string)
  (t : tools) (harness_bin : string) (queue_files : list queue_file) (time_shift : Z)
  (tr : list call) :
  tools_succeed t ->
  fits_float time_shift ->
  List.length (glob (fun n => endswith n ".profraw") profraw_dir entries)
  <= List.length queue_files ->
  exists samples tr',
    get_cumulative_coverage profraw_dir entries t harness_bin queue_files time_shift tr
    = (Ok samples, tr').
Proof.
  intros Htools Hshift Hlen. unfold get_cumulative_coverage. cbv zeta.
  rewrite <- (sorted_length path_leb) in Hlen.
  destruct (sorted path_leb (glob (fun n => endswith n ".profraw") profraw_dir entries))
    as [| p ps] eqn:E.
  - exists [], tr. reflexivity.
  - apply sample_loop_returns; [assumption | assumption |]. intros idx Hidx.
    apply sample_points_in_range in Hidx; [| cbn; lia]. lia.
Qed.

(** ** The queue scanner *)

Lemma isdigit_not_int_isspace (c : ascii) : isdigit c = true -> int_isspace c = false.
Proof.
  destruct c as [[] [] [] [] [] [] [] []]; vm_compute; congruence.
Qed.

Lemma int_lskip_digits (ds : string) : all_digits ds = true -> int_lskip ds = ds.
Proof.
  destruct ds as [| c ds]; cbn; [reflexivity |].
  intros H. apply andb_true_iff in H. destruct H as [Hc _].
  now rewrite (isdigit_not_int_isspace c Hc).
Qed.

Lemma int_rskip_digits (ds : string) : all_digits ds = true -> int_rskip ds = ds.
Proof.
  induction ds as [| c ds IH]; cbn; [reflexivity |].
  intros H. apply andb_true_iff in H. destruct H as [Hc Hds].
  rewrite (IH Hds), (isdigit_not_int_isspace c Hc). now destruct ds.
Qed.

Lemma int_digits_decimal (ds : string) (acc : Z) :
  all_digits ds = true -> int_digits ds acc false = Some (decimal_from ds acc).
Proof.
  revert acc. induction ds as [| c ds IH]; intros acc; cbn; [reflexivity |].
  intros H. apply andb_true_iff in H. destruct H as [Hc Hds].
  rewrite Hc. now apply IH.
Qed.

(** [int] reads a non-empty run of digits as its decimal value. *)
Lemma int_of_digits (ds : string) :
  ds <> EmptyString -> all_digits ds = true -> int ds = Ok (decimal ds).
Proof.
  intros Hne Hds. unfold int.
  rewrite (int_lskip_digits ds Hds), (int_rskip_digits ds Hds).
  destruct ds as [| c ds]; [congruence |].
  cbn in Hds. apply andb_true_iff in Hds. destruct Hds as [Hc Hds].
  assert (E : int_unsigned (String c ds) = Some (decimal (String c ds))).
  { cbn. rewrite Hc. unfold decimal. cbn [decimal_from].
    rewrite (int_digits_decimal ds _ Hds). reflexivity. }
  destruct c as [[] [] [] [] [] [] [] []];
    try (vm_compute in Hc; discriminate Hc); now rewrite E.
Qed.

Lemma take_digits_all (s : string) : all_digits (take_digits s) = true.
Proof.
  induction s as [| c s IH]; cbn; [reflexivity |].
  destruct (isdigit c) eqn:E; cbn; [now rewrite E | reflexivity].
Qed.

Lemma take_digits_app (ds post : string) :
  all_digits ds = true -> take_digits (ds ++ post)%string = (ds ++ take_digits post)%string.
Proof.
  induction ds as [| c ds IH]; cbn; [reflexivity |].
  intros H. apply andb_true_iff in H. destruct H as [Hc Hds].
  now rewrite Hc, IH.
Qed.

(** A string is its longest digit prefix followed by a rest that does not
    begin with a digit. *)
Lemma take_digits_split (s : string) :
  exists post, s = (take_digits s ++ post)%string /\ take_digits post = EmptyString.
Proof.
  induction s as [| c s (post & Hs & Hpost)]; cbn.
  - now exists EmptyString.
  - destruct (isdigit c) eqn:E.
    + exists post. cbn. now rewrite <- Hs.
    + exists (String c s). cbn. now rewrite E.
Qed.

Lemma startswith_app (p s : string) : startswith (p ++ s)%string p = true.
Proof.
  unfold startswith. induction p as [| c p IH]; cbn.
  - now destruct s.
  - destruct (ascii_dec c c); [exact IH | congruence].
Qed.

Lemma startswith_inv (p s : string) :
  startswith s p = true -> s = (p ++ drop (String.length p) s)%string.
Proof.
  unfold startswith. revert s. induction p as [| c p IH]; intros s H; cbn.
  - reflexivity.
  - destruct s as [| d s]; cbn in H; [discriminate |].
    destruct (ascii_dec c d) as [-> |]; [| discriminate].
    cbn. f_equal. now apply IH.
Qed.

Lemma drop_app (p s : string) : drop (String.length p) (p ++ s)%string = s.
Proof. induction p as [| c p IH]; cbn; [reflexivity | exact IH]. Qed.

(** The match at the first character, in the words of [time_token]. *)
Lemma match_time_some (s ds : string) :
  match_time s = Some ds ->
  exists post,
    s = ("time:" ++ ds ++ post)%string
    /\ ds <> EmptyString /\ all_digits ds = true /\ take_digits post = EmptyString.
Proof.
  unfold match_time. destruct (startswith s "time:") eqn:Hp; [| discriminate].
  apply startswith_inv in Hp. cbn [String.length] in Hp.
  destruct (take_digits_split (drop 5 s)) as (post & Hsplit & Hpost).
  intros H. exists post.
  assert (E : take_digits (drop 5 s) = ds).
  { destruct (take_digits (drop 5 s)); [discriminate | now injection H]. }
  rewrite E in Hsplit. repeat split.
  - rewrite Hp at 1. now rewrite Hsplit at 1.
  - intros ->. rewrite <- E in H. now rewrite E in H.
  - rewrite <- E. apply take_digits_all.
  - exact Hpost.
Qed.

Lemma take_digits_none (post : string) :
  take_digits post = EmptyString ->
  forall d post', post = String d post' -> isdigit d = false.
Proof.
  intros H d post' ->. cbn in H. now destruct (isdigit d).
Qed.

Lemma match_time_token (ds post : string) :
  ds <> EmptyString -> all_digits ds = true ->
  exists g, match_time ("time:" ++ ds ++ post)%string = Some g.
Proof.
  intros Hne Hall. unfold match_time.
  rewrite startswith_app.
  change 5 with (String.length "time:"). rewrite drop_app.
  rewrite (take_digits_app ds post Hall).
  destruct ds as [| d ds]; [congruence |]. cbn [append]. eauto.
Qed.

Lemma search_time_some (s ds : string) :
  search_time s = Some ds -> time_token s ds.
Proof.
  induction s as [| c s IH].
  - cbn. discriminate.
  - cbn [search_time]. destruct (match_time (String c s)) as [g |] eqn:Hm.
    + intros H. injection H as ->. apply match_time_some in Hm.
      destruct Hm as (post & Hs & Hne & Hall & Hpost).
      exists EmptyString, post. repeat split; try assumption.
      * now apply take_digits_none.
      * intros pre' ds' post' _ _ _. cbn. lia.
    + intros H. destruct (IH H) as (pre & post & -> & Hne & Hall & Hpost & Hleft).
      exists (String c pre), post. repeat split; try assumption.
      intros [| c' pre'] ds' post' Heq Hne' Hall'.
      * destruct (match_time_token ds' post' Hne' Hall') as (g & Hg).
        rewrite Heq in Hm. cbn [append] in Hm, Hg. congruence.
      * cbn [append] in Heq. injection Heq as _ Heq.
        specialize (Hleft pre' ds' post' Heq Hne' Hall'). cbn. lia.
Qed.

Lemma search_time_here (s g : string) :
  match_time s = Some g -> search_time s = Some g.
Proof. destruct s; cbn [search_time]; intros H; now rewrite H. Qed.

Lemma search_time_cons (c : ascii) (s : string) :
  search_time (String c s)
  = match match_time (String c s) with
    | Some g => Some g
    | None => search_time s
    end.
Proof. reflexivity. Qed.

Lemma search_time_finds (s : string) :
  has_time_token s -> exists ds, search_time s = Some ds.
Proof.
  intros (pre & ds & post & -> & Hne & Hall).
  destruct (match_time_token ds post Hne Hall) as (g & Hg).
  remember ("time:" ++ ds ++ post)%string as rest eqn:Hrest.
  induction pre as [| c pre IH].
  - exists g. now apply search_time_here.
  - change (String c pre ++ rest)%string with (String c (pre ++ rest)%string).
    rewrite search_time_cons.
    destruct (match_time (String c (pre ++ rest)%string)) as [g' |].
    + now exists g'.
    + exact IH.
Qed.

(** ** Stable sorting *)

Lemma in_insert {A : Type} (leb : A -> A -> bool) (x y : A) (l : list A) : In y (insert leb x l) <-> y = x \/ In y l.
Proof.
  induction l as [| z l IH]; cbn.
  - intuition congruence.
  - destruct (leb x z); cbn; [| rewrite IH]; intuition congruence.
Qed.

Lemma in_sorted {A : Type} (leb : A -> A -> bool) (y : A) (l : list A) : In y (sorted leb l) <-> In y l.
Proof.
  induction l as [| x l IH]; cbn; [reflexivity |].
  rewrite in_insert, IH. intuition congruence.
Qed.

Section StableSort.

Variable A : Type.
Variable leb : A -> A -> bool.
Variable R : A -> A -> Prop.

Hypothesis leb_total : forall a b, leb a b = true \/ leb b a = true.
Hypothesis leb_trans : forall a b c, leb a b = true -> leb b c = true -> leb a c = true.

Lemma insert_before (x : A) (l : list A) :
  StronglySorted (before leb R) l -> Forall (R x) l ->
  StronglySorted (before leb R) (insert leb x l).
Proof.
  induction 1 as [| y l Hl IH Hy]; intros Hx; cbn.
  - repeat constructor.
  - inversion Hx as [| ? ? Hxy Hxl]; subst.
    destruct (leb x y) eqn:E.
    + constructor; [now constructor |].
      constructor; [now split |].
      rewrite Forall_forall in *. intros z Hz. split.
      * apply (leb_trans x y z E). apply (Hy z Hz).
      * intros _. now apply Hxl.
    + constructor; [now apply IH |].
      rewrite Forall_forall in *. intros z Hz.
      apply in_insert in Hz. destruct Hz as [-> | Hz]; [| now apply Hy].
      split; [| congruence].
      destruct (leb_total y x) as [H | H]; [exact H | congruence].
Qed.

(** Sorting a list that is in the order [R] gives a list ordered by key
    and, among equal keys, by [R]. *)
Lemma sorted_before (l : list A) :
  StronglySorted R l -> StronglySorted (before leb R) (sorted leb l).
Proof.
  induction 1 as [| x l Hl IH Hx]; cbn; [constructor |].
  apply insert_before; [exact IH |].
  apply Forall_forall. intros z Hz.
  rewrite Forall_forall in Hx. apply Hx. apply (proj1 (in_sorted leb z l)), Hz.
Qed.

End StableSort.

Lemma strongly_sorted_map {A B : Type} (f : A -> B) (R : B -> B -> Prop) (l : list A) :
  StronglySorted R (map f l) -> StronglySorted (fun a b => R (f a) (f b)) l.
Proof.
  induction l as [| a l IH]; cbn; intros H; [constructor |].
  inversion H as [| ? ? Hl Ha]; subst.
  constructor; [now apply IH |].
  rewrite Forall_forall in *. intros x Hx. apply Ha. now apply in_map.
Qed.

Lemma strongly_sorted_weaken {A : Type} (R S : A -> A -> Prop) (l : list A) :
  (forall a b, R a b -> S a b) -> StronglySorted R l -> StronglySorted S l.
Proof.
  intros HRS. induction 1 as [| a l Hl IH Ha]; constructor; [exact IH |].
  rewrite Forall_forall in *. intros x Hx. apply HRS. now apply Ha.
Qed.

Lemma ascii_compare_N (x y : ascii) :
  Ascii.compare x y = N.compare (N_of_ascii x) (N_of_ascii y).
Proof. reflexivity. Qed.

Lemma string_leb_trans (a b c : string) :
  String.leb a b = true -> String.leb b c = true -> String.leb a c = true.
Proof.
  unfold String.leb. revert b c.
  induction a as [| x a IH]; intros [| y b] [| z c]; cbn; try congruence.
  rewrite !ascii_compare_N.
  destruct (N.compare_spec (N_of_ascii x) (N_of_ascii y)) as [Exy | Lxy | Gxy];
    destruct (N.compare_spec (N_of_ascii y) (N_of_ascii z)) as [Eyz | Lyz | Gyz];
    destruct (N.compare_spec (N_of_ascii x) (N_of_ascii z)) as [Exz | Lxz | Gxz];
    try congruence; try lia.
  apply IH.
Qed.

Lemma path_leb_total (p q : Path) : path_leb p q = true \/ path_leb q p = true.
Proof. apply String.leb_total. Qed.

Lemma path_leb_trans (p q r : Path) :
  path_leb p q = true -> path_leb q r = true -> path_leb p r = true.
Proof. apply string_leb_trans. Qed.

Lemma time_leb_total (a b : queue_file) : time_leb a b = true \/ time_leb b a = true.
Proof.
  unfold time_leb. rewrite !Qle_bool_iff.
  destruct (Qlt_le_dec (fst b) (fst a)) as [H | H]; [right | left]; auto using Qlt_le_weak.
Qed.

Lemma time_leb_trans (a b c : queue_file) :
  time_leb a b = true -> time_leb b c = true -> time_leb a c = true.
Proof. unfold time_leb. rewrite !Qle_bool_iff. apply Qle_trans. Qed.

Lemma strongly_sorted_trivial {A : Type} (l : list A) :
  StronglySorted (fun _ _ => True) l.
Proof.
  induction l as [| a l IH]; constructor; [exact IH |].
  apply Forall_forall. auto.
Qed.

(** The glob, once sorted, is in ascending order of names. *)
Lemma sorted_paths (paths : list Path) :
  StronglySorted (fun p q => path_leb p q = true) (sorted path_leb paths).
Proof.
  apply (strongly_sorted_weaken (before path_leb (fun _ _ => True))).
  - now intros a b [H _].
  - apply sorted_before;
      [exact path_leb_total | exact path_leb_trans | apply strongly_sorted_trivial].
Qed.

(** The loop over the glob never raises: it keeps, in order, the paths
    whose name matches, each with the value of the matched digits over
    1000. *)
Lemma scan_queue_ok (paths : list Path) :
  exists qf,
    scan_queue paths = Ok qf
    /\ map snd qf = filter has_match paths
    /\ Forall (fun q => exists ds, search_time (name (snd q)) = Some ds
                                   /\ fst q = (decimal ds # 1000)%Q) qf.
Proof.
  induction paths as [| p paths (qf & Hscan & Hmap & Hall)]; cbn.
  - exists []. repeat split. constructor.
  - unfold has_match at 1.
    destruct (search_time (name p)) as [g |] eqn:Hg.
    + destruct (search_time_some _ _ Hg) as (pre & post & _ & Hne & Hds & _).
      rewrite (int_of_digits g Hne Hds), Hscan. cbn [rbind].
      exists (((decimal g # 1000)%Q, p) :: qf). cbn. repeat split.
      * now rewrite Hmap.
      * constructor; [| exact Hall]. now exists g.
    + exists qf. auto.
Qed.

(** What [parse_queue_files] returns on an existing directory. *)
Lemma parse_queue_files_eq (queue_dir : string) (names : list string) :
  exists qf,
    scan_queue (sorted path_leb (glob (fun n => startswith n "id:") queue_dir names)) = Ok qf
    /\ parse_queue_files queue_dir (Some names) = Ok (sorted time_leb qf).
Proof.
  unfold parse_queue_files.
  destruct (scan_queue_ok
              (sorted path_leb (glob (fun n => startswith n "id:") queue_dir names)))
    as (qf & Hscan & _).
  exists qf. now rewrite Hscan.
Qed.

Lemma in_glob (matches : string -> bool) (d : string) (names : list string) (p : Path) :
  In p (glob matches d names)
  <-> parent p = d /\ In (name p) names /\ matches (name p) = true.
Proof.
  unfold glob. rewrite in_map_iff. split.
  - intros (n & <- & Hn). apply filter_In in Hn. cbn. tauto.
  - intros (Hd & Hn & Hm). exists (name p). split.
    + destruct p as [d' n']. cbn in *. now subst.
    + now apply filter_In.
Qed.

(** C3: a missing directory raises [FileNotFoundError].  For an existing
    one the scanner returns, for every entry whose name begins with [id:]
    and contains [time:<digits>], the pair of the digits' value over 1000
    and the entry's path; every returned pair comes from such an entry, so
    entries without the token, and entries that do not begin with [id:],
    are left out. *)
Theorem parse_queue_files_pairs (queue_dir : string) :
  parse_queue_files queue_dir None = Raise FileNotFoundError
  /\ forall names,
       exists qf,
         parse_queue_files queue_dir (Some names) = Ok qf
         /\ (forall n,
                In n names -> startswith n "id:" = true -> has_time_token n ->
                exists ds,
                  time_token n ds
                  /\ In ((decimal ds # 1000)%Q, mkPath queue_dir n) qf)
         /\ (forall t p,
                In (t, p) qf ->
                parent p = queue_dir
                /\ In (name p) names
                /\ startswith (name p) "id:" = true
                /\ exists ds, time_token (name p) ds /\ t = (decimal ds # 1000)%Q).
Proof.
  split; [reflexivity |]. intros names.
  destruct (parse_queue_files_eq queue_dir names) as (qf & Hscan & Hparse).
  destruct (scan_queue_ok
              (sorted path_leb (glob (fun n => startswith n "id:") queue_dir names)))
    as (qf' & Hscan' & Hmap & Hall).
  assert (qf' = qf) by congruence. subst qf'.
  rewrite Forall_forall in Hall.
  exists (sorted time_leb qf). split; [exact Hparse | split].
  - intros n Hn Hid Htok.
    destruct (search_time_finds n Htok) as (ds & Hds).
    exists ds. split; [now apply search_time_some |].
    apply in_sorted.
    assert (Hp : In (mkPath queue_dir n) (map snd qf)).
    { rewrite Hmap. apply filter_In. split.
      - apply in_sorted, in_glob. cbn. auto.
      - unfold has_match. cbn. now rewrite Hds. }
    apply in_map_iff in Hp. destruct Hp as ([t p] & Hsnd & Hq). cbn in Hsnd. subst p.
    destruct (Hall _ Hq) as (ds' & Hds' & Ht). cbn in Hds', Ht.
    assert (ds' = ds) by congruence. subst ds'.
    now rewrite <- Ht.
  - intros t p Hq. apply in_sorted in Hq.
    destruct (Hall _ Hq) as (ds & Hds & Ht). cbn in Hds, Ht.
    assert (Hp : In p (filter has_match
                         (sorted path_leb
                            (glob (fun n => startswith n "id:") queue_dir names)))).
    { rewrite <- Hmap. apply in_map_iff. now exists (t, p). }
    apply filter_In in Hp. destruct Hp as [Hp _].
    apply in_sorted, in_glob in Hp. destruct Hp as (Hd & Hn & Hid).
    repeat split; try assumption.
    exists ds. split; [now apply search_time_some | exact Ht].
Qed.

(** C4: whatever the order in which the directory lists its entries, the
    returned sequence is in non-decreasing order of time, and entries with
    equal times are in ascending order of file name. *)
Theorem parse_queue_files_sorted (queue_dir : string) (names : list string)
  (qf : list queue_file) :
  parse_queue_files queue_dir (Some names) = Ok qf ->
  StronglySorted (fun a b => (fst a <= fst b)%Q) qf
  /\ StronglySorted (fun a b => (fst a == fst b)%Q -> name_le a b) qf.
Proof.
  intros H.
  destruct (parse_queue_files_eq queue_dir names) as (qf0 & Hscan & Hparse).
  rewrite Hparse in H. injection H as <-.
  destruct (scan_queue_ok
              (sorted path_leb (glob (fun n => startswith n "id:") queue_dir names)))
    as (qf' & Hscan' & Hmap & _).
  assert (qf' = qf0) by congruence. subst qf'.
  assert (Hnames : StronglySorted name_le qf0).
  { apply (strongly_sorted_map snd (fun p q => path_leb p q = true)).
    rewrite Hmap. apply filter_strongly_sorted, sorted_paths. }
  pose proof (sorted_before queue_file time_leb name_le
                time_leb_total time_leb_trans qf0 Hnames) as Hsorted.
  split; apply (strongly_sorted_weaken (before time_leb name_le)); try exact Hsorted.
  - intros a b [H _]. now apply Qle_bool_iff.
  - intros a b [_ H] Heq. apply H.
    apply Qle_bool_iff. rewrite Heq. apply Qle_refl.
Qed.

(** ** Monotonic accumulation within a run *)

Lemma adjust_time_mono (t t' : Q) (time_shift : Z) :
  (t <= t')%Q -> (adjust_time t time_shift <= adjust_time t' time_shift)%Q.
Proof.
  intros Ht. unfold adjust_time, Qltb.
  assert (Ha : (t + inject_Z time_shift <= t' + inject_Z time_shift)%Q).
  { apply Qplus_le_compat; [exact Ht | apply Qle_refl]. }
  destruct (Qle_bool 1 (t + inject_Z time_shift)) eqn:E;
    destruct (Qle_bool 1 (t' + inject_Z time_shift)) eqn:E'; cbn.
  - exact Ha.
  - apply Qle_bool_iff in E.
    assert (H : Qle_bool 1 (t' + inject_Z time_shift) = true).
    { apply Qle_bool_iff. eapply Qle_trans; eassumption. }
    congruence.
  - now apply Qle_bool_iff.
  - apply Qle_refl.
Qed.

Lemma strongly_sorted_nth {A : Type} (R : A -> A -> Prop) (l : list A) :
  StronglySorted R l ->
  forall i j a b,
    i < j -> nth_error l i = Some a -> nth_error l j = Some b -> R a b.
Proof.
  induction 1 as [| x l Hl IH Hx]; intros i j a b Hij Hi Hj.
  - destruct i; discriminate.
  - destruct j as [| j]; [lia |]. cbn in Hj.
    destruct i as [| i]; cbn in Hi.
    + injection Hi as <-. rewrite Forall_forall in Hx.
      apply Hx. eapply nth_error_In, Hj.
    + apply (IH i j); [lia | assumption | assumption].
Qed.

Lemma forall2_in_r {A B : Type} (P : A -> B -> Prop) (xs : list A) (ys : list B) (y : B) :
  Forall2 P xs ys -> In y ys -> exists x, In x xs /\ P x y.
Proof.
  induction 1 as [| x y0 xs ys Hxy _ IH]; intros Hy; [destruct Hy |].
  destruct Hy as [<- | Hy].
  - exists x. split; [now left | exact Hxy].
  - destruct (IH Hy) as (x' & Hx' & Hp). exists x'. split; [now right | exact Hp].
Qed.

Lemma forall2_in_l {A B : Type} (P : A -> B -> Prop) (xs : list A) (ys : list B) (x : A) :
  Forall2 P xs ys -> In x xs -> exists y, In y ys /\ P x y.
Proof.
  induction 1 as [| x0 y xs ys Hxy _ IH]; intros Hx; [destruct Hx |].
  destruct Hx as [<- | Hx].
  - exists y. split; [now left | exact Hxy].
  - destruct (IH Hx) as (y' & Hy' & Hp). exists y'. split; [now right | exact Hp].
Qed.

(** Elementwise related lists: when one is sorted and the relation carries
    the order over, the other is sorted. *)
Lemma forall2_strongly_sorted {A B : Type} (P : A -> B -> Prop)
  (RA : A -> A -> Prop) (RB : B -> B -> Prop) (xs : list A) (ys : list B) :
  (forall x x' y y', RA x x' -> P x y -> P x' y' -> RB y y') ->
  Forall2 P xs ys -> StronglySorted RA xs -> StronglySorted RB ys.
Proof.
  intros Hcarry. induction 1 as [| x y xs ys Hxy Hrest IH]; intros Hs.
  - constructor.
  - inversion Hs as [| ? ? Hxs Hx]; subst.
    constructor; [now apply IH |].
    rewrite Forall_forall in *. intros y' Hy'.
    destruct (forall2_in_r P xs ys y' Hrest Hy') as (x' & Hx' & Hp).
    apply (Hcarry x x' y y'); [| assumption | assumption].
    now apply Hx.
Qed.

Lemma firstn_prefix {A : Type} (l : list A) (i j : nat) :
  i <= j -> prefix_of (firstn i l) (firstn j l).
Proof.
  intros Hij. exists (skipn i (firstn j l)).
  rewrite <- (firstn_skipn i (firstn j l)) at 1.
  rewrite firstn_firstn. now rewrite Nat.min_l.
Qed.

Lemma merge_sets_checkpoints (harness_bin : string) (profraw_files : list Path)
  (points : list nat) :
  merge_sets (flat_map (checkpoint_calls harness_bin profraw_files) points)
  = map (fun idx => firstn (idx + 1) profraw_files) points.
Proof.
  induction points as [| idx points IH]; cbn; [reflexivity |].
  unfold merge_sets in IH. now rewrite IH.
Qed.

Lemma strongly_sorted_map_intro {A B : Type} (f : A -> B) (R : B -> B -> Prop)
  (l : list A) :
  StronglySorted (fun a b => R (f a) (f b)) l -> StronglySorted R (map f l).
Proof.
  induction 1 as [| a l Hl IH Ha]; cbn; constructor; [exact IH |].
  rewrite Forall_forall in *. intros y Hy.
  apply in_map_iff in Hy. destruct Hy as (x & <- & Hx). now apply Ha.
Qed.

(** C2: in a run whose queue comes from the scanner, the samples that the
    sampler returns are in non-decreasing order of time, and each merge is
    run on a list that extends the list of the merge before it.  The
    covered-branch counts are the ones read off the reports: they are in
    non-decreasing order when the reports never show fewer covered
    branches for a longer prefix of the profiles. *)
Theorem run_samples_monotone (queue_dir : string) (names : list string)
  (queue_files : list queue_file) (profraw_dir : string) (entries : list string)
  (t : tools) (harness_bin : string) (time_shift : Z)
  (tr tr' : list call) (samples : list sample) :
  parse_queue_files queue_dir (Some names) = Ok queue_files ->
  get_cumulative_coverage profraw_dir entries t harness_bin queue_files time_shift tr
  = (Ok samples, tr') ->
  StronglySorted (fun a b => (sample_time a <= sample_time b)%Q) samples
  /\ (exists calls, tr' = tr ++ calls /\ StronglySorted prefix_of (merge_sets calls))
  /\ (reports_monotone t
        (sorted path_leb (glob (fun n => endswith n ".profraw") profraw_dir entries)) ->
      StronglySorted (fun a b => (branches_covered a <= branches_covered b)%Z) samples).
Proof.
  intros Hqueue Hrun.
  apply parse_queue_files_sorted in Hqueue. destruct Hqueue as [Htimes _].
  apply get_cumulative_coverage_ok in Hrun. cbv zeta in Hrun.
  set (profraw_files :=
         sorted path_leb (glob (fun n => endswith n ".profraw") profraw_dir entries)) in *.
  destruct Hrun as [(_ & -> & ->) | (Hlen & -> & Hsamples)].
  { split; [constructor | split; [| constructor]].
    exists []. split; [now rewrite app_nil_r | constructor]. }
  pose proof (sample_points_ascending _ Hlen) as Hpoints.
  split; [| split].
  - apply (forall2_strongly_sorted
             (sample_at t profraw_files queue_files time_shift) le)
      with (xs := sample_points (List.length profraw_files));
      [| exact Hsamples | exact Hpoints].
    intros i j s s' Hij Hs Hs'.
    destruct Hs as (out & br & q & _ & _ & Hq & ->).
    destruct Hs' as (out' & br' & q' & _ & _ & Hq' & ->).
    unfold sample_time. cbn [fst]. apply adjust_time_mono.
    destruct (Nat.eq_dec i j) as [-> | Hne].
    + assert (q' = q) by congruence. subst q'. apply Qle_refl.
    + apply (strongly_sorted_nth _ _ Htimes i j); [lia | assumption | assumption].
  - eexists. split; [reflexivity |].
    rewrite merge_sets_checkpoints. apply strongly_sorted_map_intro.
    apply (strongly_sorted_weaken le); [| exact Hpoints].
    intros i j Hij. apply firstn_prefix. lia.
  - intros Hmono.
    apply (forall2_strongly_sorted
             (sample_at t profraw_files queue_files time_shift) le)
      with (xs := sample_points (List.length profraw_files));
      [| exact Hsamples | exact Hpoints].
    intros i j s s' Hij Hs Hs'.
    destruct Hs as (out & br & q & Hcov & Hparse & _ & ->).
    destruct Hs' as (out' & br' & q' & Hcov' & Hparse' & _ & ->).
    unfold branches_covered. cbn [fst snd].
    specialize (Hmono i j Hij). unfold reported_covered in Hmono.
    now rewrite Hcov, Hparse, Hcov', Hparse' in Hmono.
Qed.

(** ** The claims on concrete inputs *)

(** C2 fails as stated: with a report that is complete at the first
    checkpoint and truncated at the last one, the covered-branch count of
    the samples drops from 25 to 0. *)
Lemma run_samples_covered_drops :
  parse_queue_files "q" (Some queue_names) = Ok queue_scanned
  /\ fst (get_cumulative_coverage "p" profraw_names tools_cut "h" queue_scanned 0 [])
     = Ok [(1%Q, 25%Z, 40%Z); ((9999 # 1000)%Q, 0%Z, 0%Z)]
  /\ ~ StronglySorted (fun a b => (branches_covered a <= branches_covered b)%Z)
         [(1%Q, 25%Z, 40%Z); ((9999 # 1000)%Q, 0%Z, 0%Z)].
Proof.
  split; [vm_compute; reflexivity | split; [vm_compute; reflexivity |]].
  intros H. inversion H as [| ? ? _ Hall]; subst.
  inversion Hall as [| ? ? Hle _]; subst.
  unfold branches_covered in Hle. cbn in Hle. lia.
Qed.

Lemma run_samples_monotone_witness :
  StronglySorted (fun a b => (sample_time a <= sample_time b)%Q)
    [(1%Q, 25%Z, 40%Z); ((4999 # 1000)%Q, 25%Z, 40%Z)].
Proof.
  refine (proj1 (run_samples_monotone "q" queue_names queue_scanned "p" profraw_names
                   tools_steady "h" (-5) []
                   (snd (get_cumulative_coverage "p" profraw_names tools_steady "h"
                           queue_scanned (-5) []))
                   [(1%Q, 25%Z, 40%Z); ((4999 # 1000)%Q, 25%Z, 40%Z)] _ _));
    vm_compute; reflexivity.
Defined.

(** C3 fails as stated: an entry whose name contains the token but does
    not begin with [id:] is not returned. *)
Lemma parse_queue_files_skips_other_names :
  In "seed,time:5" ["seed,time:5"]
  /\ has_time_token "seed,time:5"
  /\ parse_queue_files "q" (Some ["seed,time:5"]) = Ok [].
Proof.
  split; [now left | split; [| vm_compute; reflexivity]].
  exists "seed,", "5", "". repeat split. discriminate.
Qed.

Lemma parse_queue_files_pairs_witness :
  exists qf,
    parse_queue_files "q" (Some queue_names) = Ok qf
    /\ exists ds,
         time_token "id:000,time:500,x" ds
         /\ In ((decimal ds # 1000)%Q, mkPath "q" "id:000,time:500,x") qf.
Proof.
  destruct (proj2 (parse_queue_files_pairs "q") queue_names) as (qf & Hqf & Hin & _).
  exists qf. split; [exact Hqf |].
  apply Hin.
  - now left.
  - reflexivity.
  - exists "id:000,", "500", ",x". repeat split. discriminate.
Defined.

Lemma parse_queue_files_sorted_witness :
  StronglySorted (fun a b => (fst a <= fst b)%Q) queue_scanned
  /\ StronglySorted (fun a b => (fst a == fst b)%Q -> name_le a b) queue_scanned.
Proof.
  apply (parse_queue_files_sorted "q" queue_names queue_scanned).
  vm_compute. reflexivity.
Defined.

(** C5 fails as stated: the last aggregate row is truncated, and the
    result is read off the complete row before it, not (0, 0). *)
Lemma parse_coverage_report_reads_earlier_row :
  last_total_line report_two_rows = Some report_cut
  /\ unusable report_cut
  /\ parse_coverage_report report_two_rows = Ok (25%Z, 40%Z).
Proof.
  split; [vm_compute; reflexivity | split; [| vm_compute; reflexivity]].
  intros total missed (_ & Hlen & _). vm_compute in Hlen. lia.
Qed.

Lemma parse_coverage_report_first_usable_witness :
  parse_coverage_report report_two_rows = Ok ((40 - 15)%Z, 40%Z).
Proof.
  apply (proj1 (proj2 (parse_coverage_report_first_usable report_two_rows))
           [report_cut] report_ok [] 40%Z 15%Z).
  - vm_compute. reflexivity.
  - constructor; [| constructor].
    intros total missed (_ & Hlen & _). vm_compute in Hlen. lia.
  - split; [reflexivity | split; [vm_compute; lia |]].
    exists "40", "15". repeat split.
Defined.

Lemma adjusted_time_at_least_1_witness :
  Forall (fun s => (1 <= sample_time s)%Q)
    [(1%Q, 25%Z, 40%Z); ((4999 # 1000)%Q, 25%Z, 40%Z)].
Proof.
  apply (adjusted_time_at_least_1 "p" profraw_names tools_steady "h" queue_scanned (-5) []
           (snd (get_cumulative_coverage "p" profraw_names tools_steady "h"
                   queue_scanned (-5) []))).
  vm_compute. reflexivity.
Defined.

Lemma no_profiles_no_calls_witness :
  get_cumulative_coverage "p" ["notes.txt"] tools_steady "h" queue_scanned 0 []
  = (Ok [], []).
Proof.
  apply no_profiles_no_calls.
  intros n [<- | []]. reflexivity.
Defined.

Lemma encoder_failure_skips_file_witness :
  let st' := Seed.loop_body encoder_failing Seed.initial
               (Seed.lit "id:0", Seed.RegularFile []) in
  Seed.err st' = [Seed.lit "[WARN] encoder failed (code 2)" ++ [10%N]; Seed.lit "boom"]
  /\ Seed.written st' = []
  /\ Seed.total_written st' = 0
  /\ Seed.file_written st' = 0.
Proof.
  destruct (encoder_failure_skips_file encoder_failing Seed.initial (Seed.lit "id:0")
              [] []) as (Herr & _ & _ & _ & Hw & Ht & Hf & _).
  - vm_compute. discriminate.
  - exact (conj Herr (conj Hw (conj Ht Hf))).
Defined.

Lemma empty_output_skips_file_witness :
  Seed.written (Seed.loop_body encoder_silent Seed.initial
                  (Seed.lit "id:0", Seed.RegularFile [])) = []
  /\ Seed.file_written (Seed.loop_body encoder_silent Seed.initial
                          (Seed.lit "id:0", Seed.RegularFile [])) = 0.
Proof.
  destruct (empty_output_skips_file encoder_silent Seed.initial (Seed.lit "id:0")
              [] []) as (Hw & _ & Hf & _).
  - reflexivity.
  - reflexivity.
  - split; [exact Hw | exact Hf].
Defined.

(** * The rest of the code *)

(** ** Checkpoints *)

Lemma sample_points_length (n : nat) : 1 <= n -> List.length (sample_points n) <= 9.
Proof.
  intros Hn. rewrite (sample_points_eq n Hn), length_app. cbn [List.length].
  pose proof (filter_length_le (fun i => i <? n) [0; 10; 20; 50; 100; 200; 500; 1000]) as H.
  cbn [List.length] in H. lia.
Qed.

(** X1: for a non-empty list of profiles the checkpoints contain 0 and the
    last index, lie below the number of profiles, never decrease, and are
    at most nine. *)
Theorem checkpoints_within_bounds (n : nat) :
  1 <= n ->
  In 0 (sample_points n)
  /\ In (n - 1) (sample_points n)
  /\ (forall i, In i (sample_points n) -> i < n)
  /\ StronglySorted le (sample_points n)
  /\ List.length (sample_points n) <= 9.
Proof.
  intros Hn.
  destruct (sample_points_ends n Hn) as [H0 Hlast].
  repeat split; try assumption.
  - intros i. now apply sample_points_in_range.
  - now apply sample_points_ascending.
  - now apply sample_points_length.
Qed.

Lemma checkpoints_within_bounds_witness :
  In 0 (sample_points 300) /\ In 299 (sample_points 300).
Proof.
  destruct (checkpoints_within_bounds 300) as (H0 & Hlast & _); [lia |].
  split; [exact H0 | exact Hlast].
Defined.

(** X2: the checkpoints are strictly ascending, hence free of duplicates,
    exactly when the last index is not one of the eight fixed
    checkpoints. *)
Theorem checkpoints_strict_exactly (n : nat) :
  1 <= n ->
  (StronglySorted lt (sample_points n)
   <-> ~ In (n - 1) [0; 10; 20; 50; 100; 200; 500; 1000])
  /\ (NoDup (sample_points n)
      <-> ~ In (n - 1) [0; 10; 20; 50; 100; 200; 500; 1000]).
Proof.
  intros Hn. split; [now apply sample_points_strict_iff |].
  rewrite <- (sample_points_strict_iff n Hn). split.
  - intros Hnd. pose proof (sample_points_ascending n Hn) as Hle.
    induction Hle as [| a l Hl IH Ha]; [constructor |].
    inversion Hnd as [| ? ? Hnotin Hnd']; subst.
    constructor; [now apply IH |].
    rewrite Forall_forall in *. intros x Hx.
    specialize (Ha x Hx). assert (x <> a) by congruence. lia.
  - intros Hlt. induction Hlt as [| a l Hl IH Ha]; constructor; [| exact IH].
    intros Hin. rewrite Forall_forall in Ha. specialize (Ha a Hin). lia.
Qed.

Lemma checkpoints_strict_exactly_witness :
  StronglySorted lt (sample_points 300)
  <-> ~ In 299 [0; 10; 20; 50; 100; 200; 500; 1000].
Proof.
  destruct (checkpoints_strict_exactly 300) as [H _]; [lia | exact H].
Defined.

(** ** The sampler: what a run does *)

(** The calls and the samples of a run that returns. *)
Lemma get_cumulative_coverage_shape (profraw_dir : string) (entries : list string)
  (t : tools) (harness_bin : string) (queue_files : list queue_file) (time_shift : Z)
  (tr tr' : list call) (samples : list sample) :
  get_cumulative_coverage profraw_dir entries t harness_bin queue_files time_shift tr
  = (Ok samples, tr') ->
  let profraw_files := profiles_of profraw_dir entries in
  tr' = tr ++ flat_map (checkpoint_calls harness_bin profraw_files)
                (checkpoints profraw_files)
  /\ Forall2 (sample_at t profraw_files queue_files time_shift)
       (checkpoints profraw_files) samples
  /\ List.length samples <= 9.
Proof.
  intros H profraw_files.
  apply get_cumulative_coverage_ok in H. cbv zeta in H.
  fold (profiles_of profraw_dir entries) in H. fold profraw_files in H.
  destruct H as [(Hnil & -> & ->) | (Hlen & -> & Hsamples)].
  - rewrite Hnil. cbn. rewrite app_nil_r. repeat split; [constructor | lia].
  - assert (E : checkpoints profraw_files = sample_points (List.length profraw_files)).
    { unfold checkpoints. destruct profraw_files; [cbn in Hlen; lia | reflexivity]. }
    rewrite E. repeat split; [exact Hsamples |].
    rewrite <- (Forall2_length Hsamples).
    now apply sample_points_length.
Qed.

(** X3: a run that returns has made, for each checkpoint in order, one
    merge, one report and one unlink of the merged database, so that each
    temporary database is deleted before the next merge; it returns one
    sample per checkpoint, at most nine of them. *)
Theorem sampler_run_shape (profraw_dir : string) (entries : list string)
  (t : tools) (harness_bin : string) (queue_files : list queue_file) (time_shift : Z)
  (tr tr' : list call) (samples : list sample) :
  get_cumulative_coverage profraw_dir entries t harness_bin queue_files time_shift tr
  = (Ok samples, tr') ->
  let profraw_files := profiles_of profraw_dir entries in
  tr' = tr ++ flat_map (checkpoint_calls harness_bin profraw_files)
                (checkpoints profraw_files)
  /\ Forall2 (sample_at t profraw_files queue_files time_shift)
       (checkpoints profraw_files) samples
  /\ List.length samples <= 9.
Proof. apply get_cumulative_coverage_shape. Qed.

Lemma sampler_run_shape_witness :
  List.length [(1%Q, 25%Z, 40%Z); ((4999 # 1000)%Q, 25%Z, 40%Z)] <= 9.
Proof.
  refine (proj2 (proj2 (sampler_run_shape "p" profraw_names tools_steady "h"
                          queue_scanned (-5) []
                          (snd (get_cumulative_coverage "p" profraw_names tools_steady "h"
                                  queue_scanned (-5) []))
                          [(1%Q, 25%Z, 40%Z); ((4999 # 1000)%Q, 25%Z, 40%Z)] _))).
  vm_compute. reflexivity.
Defined.

(** A run of the loop that raises has completed some checkpoints and has
    stopped at a stage of the next one. *)
Lemma sample_loop_raises (t : tools) (harness_bin : string) (profraw_files : list Path)
  (queue_files : list queue_file) (time_shift : Z) (points : list nat) :
  forall (results : list sample) (tr tr' : list call) (e : exn),
    sample_loop t harness_bin profraw_files queue_files time_shift points results tr
    = (Raise e, tr') ->
    exists completed idx rest s,
      points = completed ++ idx :: rest
      /\ tr' = tr ++ flat_map (checkpoint_calls harness_bin profraw_files) completed
                  ++ unfinished_calls harness_bin profraw_files idx s
      /\ fails_at t profraw_files queue_files time_shift idx s e.
Proof.
  induction points as [| idx rest IH]; intros results tr tr' e H.
  - cbn in H. discriminate.
  - cbn [sample_loop] in H. unfold bind, run, lift in H.
    destruct (profdata_fault t (firstn (idx + 1) profraw_files)) as [f |] eqn:Hpf.
    { injection H as <- <-. exists [], idx, rest, AtMerge.
      unfold fails_at. rewrite Hpf. cbn [flat_map app unfinished_calls option_map].
      auto. }
    destruct (llvm_profdata t (firstn (idx + 1) profraw_files)) eqn:Hmerge.
    2:{ injection H as <- <-. exists [], idx, rest, AtMerge.
        unfold fails_at. cbn [flat_map app unfinished_calls]. auto 6. }
    destruct (cov_fault t (firstn (idx + 1) profraw_files)) as [f |] eqn:Hcf.
    { injection H as <- <-. exists [], idx, rest, AtReport.
      unfold fails_at. rewrite Hcf. cbn [flat_map app unfinished_calls option_map].
      rewrite <- app_assoc. auto. }
    destruct (llvm_cov t (firstn (idx + 1) profraw_files)) as [stdout |] eqn:Hcov.
    2:{ injection H as <- <-. exists [], idx, rest, AtReport.
        unfold fails_at. cbn [flat_map app unfinished_calls].
        rewrite <- app_assoc. auto 6. }
    destruct (scan_report_total (rev (report_lines stdout))) as (branches & Hparse).
    unfold parse_coverage_report in H. rewrite Hparse in H.
    unfold getitem in H.
    destruct (nth_error queue_files idx) as [q |] eqn:Hq.
    2:{ injection H as <- <-. apply nth_error_None in Hq.
        exists [], idx, rest, AtQueueLookup.
        unfold fails_at. cbn [flat_map app unfinished_calls].
        rewrite <- app_assoc. auto. }
    unfold float_of_int in H.
    destruct (Z.abs time_shift <? float_limit)%Z eqn:Hshift.
    2:{ injection H as <- <-. apply Z.ltb_ge in Hshift.
        exists [], idx, rest, AtTimeShift.
        unfold fails_at. cbn [flat_map app unfinished_calls].
        rewrite <- app_assoc. auto. }
    destruct (unlink_fault t idx) as [f |] eqn:Hunlink.
    { injection H as <- <-. exists [], idx, rest, AtUnlink.
      unfold fails_at. rewrite Hunlink.
      cbn [flat_map app unfinished_calls checkpoint_calls option_map].
      rewrite <- !app_assoc. auto. }
    apply IH in H.
    destruct H as (completed & idx' & rest' & s & -> & -> & Hwhy).
    exists (idx :: completed), idx', rest', s.
    split; [reflexivity |]. split; [| exact Hwhy].
    cbn [flat_map checkpoint_calls]. now rewrite <- !app_assoc.
Qed.

(** The calls of a run that raises, and why it raises. *)
Lemma get_cumulative_coverage_raises (profraw_dir : string) (entries : list string)
  (t : tools) (harness_bin : string) (queue_files : list queue_file) (time_shift : Z)
  (tr tr' : list call) (e : exn) :
  get_cumulative_coverage profraw_dir entries t harness_bin queue_files time_shift tr
  = (Raise e, tr') ->
  let profraw_files := profiles_of profraw_dir entries in
  exists completed idx rest s,
    checkpoints profraw_files = completed ++ idx :: rest
    /\ tr' = tr ++ flat_map (checkpoint_calls harness_bin profraw_files) completed
                ++ unfinished_calls harness_bin profraw_files idx s
    /\ fails_at t profraw_files queue_files time_shift idx s e.
Proof.
  unfold get_cumulative_coverage. cbv zeta.
  fold (profiles_of profraw_dir entries).
  destruct (profiles_of profraw_dir entries) as [| p ps] eqn:E; intros H.
  - cbn in H. discriminate.
  - now apply sample_loop_raises in H.
Qed.

(** With tools that succeed and a time shift that fits a [float], the
    only exception left is the [IndexError] of the queue lookup. *)
Lemma fails_at_index (t : tools) (profraw_files : list Path)
  (queue_files : list queue_file) (time_shift : Z) (idx : nat) (s : stage) (e : exn) :
  tools_succeed t ->
  fits_float time_shift ->
  fails_at t profraw_files queue_files time_shift idx s e ->
  e = IndexError /\ List.length queue_files <= idx.
Proof.
  intros [Htools Hunlink] Hshift.
  destruct (Htools (firstn (idx + 1) profraw_files)) as (Hpf & Hmerge & Hcf & Hcov).
  unfold fits_float in Hshift. unfold fails_at.
  destruct s; cbv zeta.
  - rewrite Hpf. intros [H | (_ & H & _)]; [discriminate | congruence].
  - rewrite Hcf. intros [H | (_ & H & _)]; [discriminate | congruence].
  - intros [H ->]. auto.
  - intros [H _]. lia.
  - rewrite Hunlink. discriminate.
Qed.

(** An [IndexError] can only come from the queue lookup. *)
Lemma fails_at_index_error (t : tools) (profraw_files : list Path)
  (queue_files : list queue_file) (time_shift : Z) (idx : nat) (s : stage) :
  fails_at t profraw_files queue_files time_shift idx s IndexError ->
  List.length queue_files <= idx.
Proof.
  unfold fails_at. destruct s; cbv zeta.
  - destruct (profdata_fault t (firstn (idx + 1) profraw_files)) as [[] |];
      intros [H | (_ & _ & H)]; discriminate.
  - destruct (cov_fault t (firstn (idx + 1) profraw_files)) as [[] |];
      intros [H | (_ & _ & H)]; discriminate.
  - intros [H _]. exact H.
  - intros [_ H]. discriminate.
  - destruct (unlink_fault t idx) as [[] |]; discriminate.
Qed.

(** X4: a run that raises has completed the checkpoints before the failing
    one, with their three calls each, and has stopped at one step of the
    failing one: at the merge or at the report, with the exception of
    starting the tool or of reading its output, or with
    [CalledProcessError] when the tool exits non-zero; at the queue lookup
    with [IndexError], when the queue has no entry at the checkpoint; at
    the addition of the time shift with [OverflowError], when the shift is
    too large for a [float]; or at the removal of the merged database,
    with the exception of the removal.  No call is made after the failing
    step, so that the database merged for the failing checkpoint is left
    behind unless the removal itself was reached. *)
Theorem sampler_failure_shape (profraw_dir : string) (entries : list string)
  (t : tools) (harness_bin : string) (queue_files : list queue_file) (time_shift : Z)
  (tr tr' : list call) (e : exn) :
  get_cumulative_coverage profraw_dir entries t harness_bin queue_files time_shift tr
  = (Raise e, tr') ->
  let profraw_files := profiles_of profraw_dir entries in
  exists completed idx rest s,
    checkpoints profraw_files = completed ++ idx :: rest
    /\ tr' = tr ++ flat_map (checkpoint_calls harness_bin profraw_files) completed
                ++ unfinished_calls harness_bin profraw_files idx s
    /\ fails_at t profraw_files queue_files time_shift idx s e.
Proof. apply get_cumulative_coverage_raises. Qed.

Lemma sampler_failure_shape_witness :
  exists completed idx rest s,
    checkpoints (profiles_of "p" profraw_names) = completed ++ idx :: rest
    /\ [ProfdataMerge 0 [mkPath "p" "000000.profraw"]; CovReport "h" 0]
       = [] ++ flat_map (checkpoint_calls "h" (profiles_of "p" profraw_names)) completed
            ++ unfinished_calls "h" (profiles_of "p" profraw_names) idx s
    /\ fails_at tools_steady (profiles_of "p" profraw_names) [] 0 idx s IndexError.
Proof.
  apply (sampler_failure_shape "p" profraw_names tools_steady "h" [] 0 []
           [ProfdataMerge 0 [mkPath "p" "000000.profraw"]; CovReport "h" 0]
           IndexError).
  vm_compute. reflexivity.
Defined.

(** X5: with tools that can be started, exit with status zero and print
    text, merged databases that can be removed and a time shift that fits
    a [float], the sampler returns one sample per checkpoint when the
    queue has at least as many entries as there are profiles, and raises
    [IndexError] when it has fewer. *)
Theorem sampler_needs_queue_entries (profraw_dir : string) (entries : list string)
  (t : tools) (harness_bin : string) (queue_files : list queue_file) (time_shift : Z)
  (tr : list call) :
  tools_succeed t ->
  fits_float time_shift ->
  let profraw_files := profiles_of profraw_dir entries in
  let outcome :=
    get_cumulative_coverage profraw_dir entries t harness_bin queue_files time_shift tr in
  (List.length profraw_files <= List.length queue_files ->
   exists samples, fst outcome = Ok samples
                   /\ List.length samples = List.length (checkpoints profraw_files))
  /\ (List.length queue_files < List.length profraw_files ->
      fst outcome = Raise IndexError).
Proof.
  intros Htools Hshift profraw_files outcome. split; intros Hlen.
  - destruct (get_cumulative_coverage_returns profraw_dir entries t harness_bin
                queue_files time_shift tr Htools Hshift) as (samples & tr' & Hrun).
    { unfold profraw_files, profiles_of in Hlen. now rewrite sorted_length in Hlen. }
    exists samples. unfold outcome. rewrite Hrun. split; [reflexivity |].
    apply get_cumulative_coverage_shape in Hrun. destruct Hrun as (_ & Hsamples & _).
    symmetry. exact (Forall2_length Hsamples).
  - unfold outcome.
    destruct (get_cumulative_coverage profraw_dir entries t harness_bin queue_files
                time_shift tr) as [[samples | e] tr'] eqn:Hrun; cbn [fst].
    + exfalso. apply get_cumulative_coverage_ok in Hrun. cbv zeta in Hrun.
      fold (profiles_of profraw_dir entries) in Hrun. fold profraw_files in Hrun.
      destruct Hrun as [(Hnil & _) | (H1 & _ & Hsamples)].
      * rewrite Hnil in Hlen. cbn in Hlen. lia.
      * destruct (sample_points_ends _ H1) as [_ Hlast].
        destruct (forall2_in_l _ _ _ _ Hsamples Hlast) as (s & _ & Hs).
        destruct Hs as (out & br & q & _ & _ & Hq & _).
        assert (List.length profraw_files - 1 < List.length queue_files).
        { apply nth_error_Some. congruence. }
        lia.
    + apply get_cumulative_coverage_raises in Hrun. cbv zeta in Hrun.
      destruct Hrun as (completed & idx & rest & s & _ & _ & Hwhy).
      apply (fails_at_index _ _ _ _ _ _ _ Htools Hshift) in Hwhy.
      destruct Hwhy as [-> _]. reflexivity.
Qed.

Lemma sampler_needs_queue_entries_witness :
  fst (get_cumulative_coverage "p" profraw_names tools_steady "h" [] 0 [])
  = Raise IndexError.
Proof.
  refine (proj2 (sampler_needs_queue_entries "p" profraw_names tools_steady "h" [] 0 []
                   _ _) _).
  - split; [intros files; repeat split; discriminate | reflexivity].
  - vm_compute. reflexivity.
  - vm_compute. lia.
Defined.

(** ** The queue scanner: order of the listing, count, times *)

Lemma insert_perm {A : Type} (leb : A -> A -> bool) (x : A) (l : list A) :
  Permutation (insert leb x l) (x :: l).
Proof.
  induction l as [| y l IH]; cbn; [reflexivity |].
  destruct (leb x y); [reflexivity |].
  rewrite IH. apply perm_swap.
Qed.

Lemma sorted_perm {A : Type} (leb : A -> A -> bool) (l : list A) :
  Permutation (sorted leb l) l.
Proof.
  induction l as [| x l IH]; cbn; [reflexivity |].
  rewrite insert_perm. now constructor.
Qed.

Lemma filter_perm {A : Type} (f : A -> bool) (l l' : list A) :
  Permutation l l' -> Permutation (filter f l) (filter f l').
Proof.
  induction 1 as [| x l l' _ IH | x y l | l l' l'' _ IH1 _ IH2]; cbn.
  - reflexivity.
  - destruct (f x); [now constructor | exact IH].
  - destruct (f x), (f y); try reflexivity. apply perm_swap.
  - now transitivity (filter f l').
Qed.

(** Two sorted lists with the same elements are equal when the order is
    antisymmetric on these elements. *)
Lemma strongly_sorted_unique {A : Type} (R : A -> A -> Prop) (l1 : list A) :
  forall l2,
    StronglySorted R l1 -> StronglySorted R l2 -> Permutation l1 l2 ->
    (forall a b, In a l1 -> In b l1 -> R a b -> R b a -> a = b) ->
    l1 = l2.
Proof.
  induction l1 as [| a l1 IH]; intros l2 H1 H2 Hperm Hanti.
  - now apply Permutation_nil in Hperm.
  - destruct l2 as [| b l2].
    { apply Permutation_sym, Permutation_nil in Hperm. discriminate. }
    inversion H1 as [| ? ? H1' Ha]; subst.
    inversion H2 as [| ? ? H2' Hb]; subst.
    rewrite Forall_forall in Ha, Hb.
    assert (Hab : a = b).
    { assert (Hb_in : In b (a :: l1)).
      { apply (Permutation_in b (Permutation_sym Hperm)). now left. }
      assert (Ha_in : In a (b :: l2)).
      { apply (Permutation_in a Hperm). now left. }
      destruct Hb_in as [-> | Hb_in]; [reflexivity |].
      destruct Ha_in as [-> | Ha_in]; [reflexivity |].
      apply Hanti; [now left | now right | now apply Ha | now apply Hb]. }
    subst b. f_equal. apply IH; try assumption.
    + now apply Permutation_cons_inv in Hperm.
    + intros x y Hx Hy. apply Hanti; now right.
Qed.

Lemma sorted_strongly {A : Type} (leb : A -> A -> bool) (l : list A) :
  (forall a b, leb a b = true \/ leb b a = true) ->
  (forall a b c, leb a b = true -> leb b c = true -> leb a c = true) ->
  StronglySorted (fun a b => leb a b = true) (sorted leb l).
Proof.
  intros Htotal Htrans.
  apply (strongly_sorted_weaken (before leb (fun _ _ => True))).
  - now intros a b [H _].
  - apply sorted_before; [exact Htotal | exact Htrans | apply strongly_sorted_trivial].
Qed.

(** Sorting does not depend on the order of the input when the order is
    antisymmetric on its elements. *)
Lemma sorted_unique {A : Type} (leb : A -> A -> bool) (l l' : list A) :
  (forall a b, leb a b = true \/ leb b a = true) ->
  (forall a b c, leb a b = true -> leb b c = true -> leb a c = true) ->
  (forall a b, In a l -> In b l -> leb a b = true -> leb b a = true -> a = b) ->
  Permutation l l' ->
  sorted leb l = sorted leb l'.
Proof.
  intros Htotal Htrans Hanti Hperm.
  apply (strongly_sorted_unique (fun a b => leb a b = true)).
  - now apply sorted_strongly.
  - now apply sorted_strongly.
  - rewrite !sorted_perm. exact Hperm.
  - intros a b Ha Hb. apply Hanti; now apply (in_sorted leb).
Qed.

Lemma glob_paths_antisym (matches : string -> bool) (d : string) (names : list string)
  (p q : Path) :
  In p (glob matches d names) -> In q (glob matches d names) ->
  path_leb p q = true -> path_leb q p = true -> p = q.
Proof.
  intros Hp Hq Hpq Hqp.
  apply in_glob in Hp. apply in_glob in Hq.
  destruct Hp as (Hdp & _). destruct Hq as (Hdq & _).
  pose proof (String.leb_antisym _ _ Hpq Hqp) as Hn.
  destruct p, q. cbn in *. congruence.
Qed.

Lemma sorted_glob_perm (matches : string -> bool) (d : string) (names names' : list string) :
  Permutation names names' ->
  sorted path_leb (glob matches d names) = sorted path_leb (glob matches d names').
Proof.
  intros Hperm. apply sorted_unique.
  - exact path_leb_total.
  - exact path_leb_trans.
  - apply glob_paths_antisym.
  - unfold glob. now apply Permutation_map, filter_perm.
Qed.

(** X6: the scanner's result does not depend on the order in which the
    directory lists its entries. *)
Theorem parse_queue_files_any_listing_order (queue_dir : string)
  (names names' : list string) :
  Permutation names names' ->
  parse_queue_files queue_dir (Some names) = parse_queue_files queue_dir (Some names').
Proof.
  intros Hperm. unfold parse_queue_files.
  now rewrite (sorted_glob_perm _ queue_dir names names' Hperm).
Qed.

Lemma parse_queue_files_any_listing_order_witness :
  parse_queue_files "q" (Some queue_names) = parse_queue_files "q" (Some (rev queue_names)).
Proof.
  apply parse_queue_files_any_listing_order. apply Permutation_rev.
Defined.

Lemma glob_kept_length (d : string) (names : list string) :
  List.length (filter has_match (glob (fun n => startswith n "id:") d names))
  = List.length (filter kept_name names).
Proof.
  unfold glob, kept_name. induction names as [| n names IH]; cbn; [reflexivity |].
  destruct (startswith n "id:"); cbn; [| exact IH].
  unfold has_match at 1. cbn.
  destruct (search_time n); cbn; now rewrite IH.
Qed.

Lemma decimal_from_nonneg (ds : string) (acc : Z) :
  all_digits ds = true -> (0 <= acc)%Z -> (0 <= decimal_from ds acc)%Z.
Proof.
  revert acc. induction ds as [| c ds IH]; intros acc Hds Hacc;
    cbn [decimal_from]; [exact Hacc |].
  cbn [all_digits] in Hds. apply andb_true_iff in Hds. destruct Hds as [Hc Hds].
  apply IH; [exact Hds |].
  unfold isdigit in Hc. cbv zeta in Hc.
  apply andb_true_iff in Hc. destruct Hc as [Hlo _].
  apply Nat.leb_le in Hlo. unfold digit_value. lia.
Qed.

(** X7: the scanner returns as many entries as there are names that begin
    with [id:] and contain the token, and no returned time is negative. *)
Theorem parse_queue_files_count (queue_dir : string) (names : list string)
  (qf : list queue_file) :
  parse_queue_files queue_dir (Some names) = Ok qf ->
  List.length qf = List.length (filter kept_name names)
  /\ Forall (fun q => (0 <= fst q)%Q) qf.
Proof.
  intros H.
  destruct (parse_queue_files_eq queue_dir names) as (qf0 & Hscan & Hparse).
  rewrite Hparse in H. injection H as <-.
  destruct (scan_queue_ok
              (sorted path_leb (glob (fun n => startswith n "id:") queue_dir names)))
    as (qf' & Hscan' & Hmap & Hall).
  assert (qf' = qf0) by congruence. subst qf'. split.
  - rewrite sorted_length.
    transitivity (List.length (map snd qf0)); [symmetry; apply length_map |].
    rewrite Hmap, <- (glob_kept_length queue_dir names).
    apply Permutation_length, filter_perm, sorted_perm.
  - rewrite Forall_forall in *. intros q Hq. apply in_sorted in Hq.
    destruct (Hall q Hq) as (ds & Hds & ->).
    destruct (search_time_some _ _ Hds) as (pre & post & _ & _ & Hdigits & _).
    pose proof (decimal_from_nonneg ds 0 Hdigits (Z.le_refl 0)) as Hnn.
    fold (decimal ds) in Hnn. unfold Qle. cbn [Qnum Qden]. lia.
Qed.

Lemma parse_queue_files_count_witness :
  List.length queue_scanned = List.length (filter kept_name queue_names)
  /\ Forall (fun q => (0 <= fst q)%Q) queue_scanned.
Proof.
  apply (parse_queue_files_count "q" queue_names queue_scanned).
  vm_compute. reflexivity.
Defined.

(** ** The pattern search *)

Lemma append_same_length (a b c d : string) :
  String.length a = String.length c ->
  (a ++ b)%string = (c ++ d)%string -> a = c /\ b = d.
Proof.
  revert c. induction a as [| x a IH]; intros [| y c] Hlen H; cbn in *;
    try discriminate; [now split |].
  injection H as -> H. injection Hlen as Hlen.
  destruct (IH c Hlen H) as [-> ->]. now split.
Qed.

Lemma take_digits_nil (post : string) :
  (forall d post', post = String d post' -> isdigit d = false) ->
  take_digits post = EmptyString.
Proof.
  destruct post as [| d post]; intros H; cbn; [reflexivity |].
  now rewrite (H d post eq_refl).
Qed.

Lemma time_token_unique (s ds ds' : string) :
  time_token s ds -> time_token s ds' -> ds = ds'.
Proof.
  intros (pre & post & Hs & Hne & Hall & Hpost & Hleft)
         (pre' & post' & Hs' & Hne' & Hall' & Hpost' & Hleft').
  assert (Hlen : String.length pre = String.length pre').
  { apply Nat.le_antisymm; [apply (Hleft pre' ds' post') | apply (Hleft' pre ds post)];
      assumption. }
  rewrite Hs in Hs'.
  destruct (append_same_length _ _ _ _ Hlen Hs') as [_ Hrest].
  cbn [append] in Hrest. injection Hrest as Hrest.
  assert (E : take_digits (ds ++ post)%string = take_digits (ds' ++ post')%string)
    by now rewrite Hrest.
  rewrite !take_digits_app, (take_digits_nil post Hpost),
    (take_digits_nil post' Hpost') in E by assumption.
  assert (Hnil : forall x : string, (x ++ "")%string = x).
  { induction x as [| c x IH]; cbn; [reflexivity | now rewrite IH]. }
  now rewrite !Hnil in E.
Qed.

(** X8: the search for [time:(\d+)] finds exactly the digits of the
    leftmost occurrence of [time:] followed by a digit, taking all the
    digits that follow; it finds nothing exactly when the name has no such
    occurrence. *)
Theorem search_time_leftmost (s : string) :
  (forall ds, search_time s = Some ds <-> time_token s ds)
  /\ (search_time s = None <-> ~ has_time_token s).
Proof.
  assert (Hfwd : forall ds, search_time s = Some ds -> time_token s ds)
    by (intros ds; apply search_time_some).
  assert (Hhas : forall ds, time_token s ds -> has_time_token s).
  { intros ds (pre & post & Hs & Hne & Hall & _). now exists pre, ds, post. }
  split.
  - intros ds. split; [apply Hfwd |]. intros Htok.
    destruct (search_time_finds s (Hhas ds Htok)) as (ds' & Hds').
    rewrite Hds'. f_equal. apply (time_token_unique s); [now apply Hfwd | exact Htok].
  - split.
    + intros Hnone Hhas'. destruct (search_time_finds s Hhas') as (ds & Hds). congruence.
    + intros Hnot. destruct (search_time s) as [ds |] eqn:E; [| reflexivity].
      destruct Hnot. apply (Hhas ds), Hfwd. reflexivity.
Qed.

Lemma search_time_leftmost_witness :
  time_token "id:000,time:500,x" "500".
Proof.
  apply (proj1 (proj1 (search_time_leftmost "id:000,time:500,x") "500")).
  reflexivity.
Defined.

(** ** The replay of the queue and the order of the profiles *)

Lemma pow10_pos (w : nat) : (0 < pow10 w)%N.
Proof. induction w as [| w IH]; cbn; lia. Qed.

Lemma digits_length (w : nat) (n : N) : String.length (digits w n) = w.
Proof. induction w as [| w IH]; cbn; [reflexivity | now rewrite IH]. Qed.

(** Numbers in the order of their last [w] digits have their digit
    strings in the same order. *)
Lemma digits_compare_lt (w : nat) (i j : N) :
  (i mod pow10 w < j mod pow10 w)%N ->
  String.compare (digits w i) (digits w j) = Lt.
Proof.
  induction w as [| w IH]; cbn [digits pow10]; intros H.
  - rewrite !N.mod_1_r in H. lia.
  - rewrite !N.Div0.mod_mul_r in H.
    pose proof (pow10_pos w) as Hpos.
    assert (Hi : (i mod pow10 w < pow10 w)%N) by (apply N.mod_lt; lia).
    assert (Hj : (j mod pow10 w < pow10 w)%N) by (apply N.mod_lt; lia).
    assert (Hai : ((i / pow10 w) mod 10 < 10)%N) by (apply N.mod_lt; lia).
    assert (Haj : ((j / pow10 w) mod 10 < 10)%N) by (apply N.mod_lt; lia).
    cbn [String.compare]. rewrite ascii_compare_N. unfold digit_char.
    rewrite !N_ascii_embedding by lia.
    destruct (N.compare_spec (48 + (i / pow10 w) mod 10) (48 + (j / pow10 w) mod 10))
      as [E | L | G].
    + apply IH. assert (E' : ((i / pow10 w) mod 10 = (j / pow10 w) mod 10)%N) by lia.
      rewrite E' in H. lia.
    + reflexivity.
    + exfalso. clear IH Hai Haj Hi Hpos.
      assert (Hmul : (pow10 w * ((j / pow10 w) mod 10 + 1)
                      <= pow10 w * ((i / pow10 w) mod 10))%N)
        by (apply N.mul_le_mono_l; lia).
      rewrite N.mul_add_distr_l, N.mul_1_r in Hmul.
      revert H Hj Hmul.
      generalize (pow10 w * ((i / pow10 w) mod 10))%N. intros pa.
      generalize (pow10 w * ((j / pow10 w) mod 10))%N. intros pb.
      generalize (i mod pow10 w)%N. intros ri.
      generalize (j mod pow10 w)%N. intros rj.
      generalize (pow10 w). intros pw. lia.
Qed.

Lemma compare_app_lt (a b x y : string) :
  String.compare a b = Lt -> String.length a = String.length b ->
  String.compare (a ++ x) (b ++ y) = Lt.
Proof.
  revert b. induction a as [| c a IH]; intros [| d b] Hlt Hlen; cbn in *;
    try discriminate.
  destruct (Ascii.compare c d); try discriminate; [| reflexivity].
  apply IH; [exact Hlt | now injection Hlen].
Qed.

Lemma profile_name_lt (i j : N) :
  (i < j)%N -> (j < 1000000)%N ->
  String.compare (profile_name i) (profile_name j) = Lt.
Proof.
  intros Hij Hj. unfold profile_name, format_06d.
  assert (Hi' : (i <? 1000000)%N = true) by (apply N.ltb_lt; lia).
  assert (Hj' : (j <? 1000000)%N = true) by (apply N.ltb_lt; lia).
  rewrite Hi', Hj'.
  apply compare_app_lt; [| now rewrite !digits_length].
  apply digits_compare_lt.
  change (pow10 6) with 1000000%N.
  rewrite !N.mod_small by lia. exact Hij.
Qed.

Lemma list_ascii_app (a b : string) :
  list_ascii_of_string (a ++ b) = list_ascii_of_string a ++ list_ascii_of_string b.
Proof. induction a as [| c a IH]; cbn; [reflexivity | now rewrite IH]. Qed.

Lemma endswith_rev_app (p x : list ascii) : endswith_rev (p ++ x) p = true.
Proof.
  induction p as [| c p IH]; cbn; [now destruct x |].
  now rewrite Ascii.eqb_refl, IH.
Qed.

Lemma endswith_app (a p : string) : endswith (a ++ p) p = true.
Proof.
  unfold endswith. rewrite list_ascii_app, rev_app_distr. apply endswith_rev_app.
Qed.

(** Sorting a sorted list leaves it as it is. *)
Lemma sorted_id {A : Type} (leb : A -> A -> bool) (l : list A) :
  StronglySorted (fun a b => leb a b = true) l -> sorted leb l = l.
Proof.
  induction 1 as [| x l Hl IH Hx]; cbn; [reflexivity |].
  rewrite IH. destruct l as [| y l]; cbn; [reflexivity |].
  inversion Hx as [| ? ? Hxy _]; subst. now rewrite Hxy.
Qed.

(** The replays leave profiles whose indices ascend from [idx]. *)
Lemma replay_indices (harness : Path -> bool) (queue_files : list queue_file) :
  forall idx,
    exists ks,
      replay harness idx queue_files = map profile_name ks
      /\ StronglySorted N.lt ks
      /\ Forall (fun k => (idx <= k < idx + N.of_nat (List.length queue_files))%N) ks
      /\ ((forall p, harness p = true) ->
          ks = map (fun i => (idx + N.of_nat i)%N) (seq 0 (List.length queue_files))).
Proof.
  induction queue_files as [| [time_sec file_path] rest IH]; intros idx.
  - exists []. cbn. repeat split; constructor.
  - destruct (IH (N.succ idx)) as (ks & Hks & Hsorted & Hrange & Hall).
    assert (Hrange' : Forall (fun k => (idx < k
                                        /\ idx <= k < idx + N.of_nat (S (List.length rest)))%N) ks).
    { rewrite Forall_forall in *. intros k Hk. specialize (Hrange k Hk). lia. }
    assert (Hseq : (forall p, harness p = true) ->
                   idx :: ks = map (fun i => (idx + N.of_nat i)%N)
                                   (seq 0 (S (List.length rest)))).
    { intros Hp. rewrite (Hall Hp). cbn [seq map]. f_equal; [lia |].
      rewrite <- seq_shift, map_map. apply map_ext. intros i. lia. }
    cbn [replay List.length]. destruct (harness file_path) eqn:Hh.
    + exists (idx :: ks). cbn [app map]. rewrite Hks. repeat split.
      * constructor; [exact Hsorted |].
        rewrite Forall_forall in *. intros k Hk. now apply Hrange'.
      * constructor; [lia |].
        rewrite Forall_forall in *. intros k Hk. now apply Hrange'.
      * exact Hseq.
    + exists ks. cbn [app]. repeat split; try assumption.
      * rewrite Forall_forall in *. intros k Hk. now apply Hrange'.
      * intros Hp. rewrite Hp in Hh. discriminate.
Qed.

(** X9: after a batch of at most 10^6 replays, the sampler's sorted list
    of profiles is the list of the profiles in the order of the replays,
    whatever the order in which the directory lists them; when every
    replay leaves a profile, the profile at position [i] is the one of
    queue entry [i]. *)
Theorem batch_profiles_in_replay_order (harness : Path -> bool)
  (queue_files : list queue_file) (profraw_dir : string) (entries : list string) :
  (N.of_nat (List.length queue_files) <= 1000000)%N ->
  Permutation entries (run_coverage_batch harness queue_files) ->
  profiles_of profraw_dir entries
  = map (mkPath profraw_dir) (run_coverage_batch harness queue_files)
  /\ ((forall p, harness p = true) ->
      run_coverage_batch harness queue_files
      = map (fun i => profile_name (N.of_nat i)) (seq 0 (List.length queue_files))).
Proof.
  intros Hlen Hperm. unfold run_coverage_batch in *.
  destruct (replay_indices harness queue_files 0) as (ks & Hks & Hsorted & Hrange & Hall).
  split.
  - unfold profiles_of. rewrite (sorted_glob_perm _ profraw_dir _ _ Hperm), Hks.
    assert (Hglob : glob (fun n => endswith n ".profraw") profraw_dir (map profile_name ks)
                    = map (mkPath profraw_dir) (map profile_name ks)).
    { unfold glob. f_equal. clear. induction ks as [| k ks IH]; cbn; [reflexivity |].
      unfold profile_name at 1. rewrite endswith_app. now rewrite IH. }
    rewrite Hglob. apply sorted_id.
    apply strongly_sorted_map_intro, strongly_sorted_map_intro.
    clear Hks Hall Hperm Hglob.
    induction Hsorted as [| k ks Hs IH Hk]; constructor.
    + apply IH. now inversion Hrange.
    + inversion Hrange as [| ? ? Hk_range Hks_range]; subst.
      rewrite Forall_forall in *. intros k' Hk'.
      unfold path_leb, String.leb. cbn [name].
      rewrite (profile_name_lt k k'); [reflexivity | now apply Hk |].
      specialize (Hks_range k' Hk'). lia.
  - intros Hp. rewrite Hks, (Hall Hp), map_map. reflexivity.
Qed.

Lemma batch_profiles_in_replay_order_witness :
  profiles_of "p" profraw_names
  = map (mkPath "p") (run_coverage_batch (fun _ => true) queue_scanned).
Proof.
  refine (proj1 (batch_profiles_in_replay_order (fun _ => true) queue_scanned "p"
                   profraw_names _ _)).
  - cbn. lia.
  - apply perm_swap.
Defined.

Lemma replay_length (harness : Path -> bool) (queue_files : list queue_file) :
  forall idx, List.length (replay harness idx queue_files) <= List.length queue_files.
Proof.
  induction queue_files as [| [time_sec file_path] rest IH]; intros idx; cbn; [lia |].
  rewrite length_app. specialize (IH (N.succ idx)).
  destruct (harness file_path); cbn; lia.
Qed.

Lemma profiles_of_length (profraw_dir : string) (entries : list string) :
  List.length (profiles_of profraw_dir entries) <= List.length entries.
Proof.
  unfold profiles_of, glob. rewrite sorted_length, length_map.
  apply filter_length_le.
Qed.

(** X10: when the sampler is run on the profiles that a batch over the
    same queue has left, as [main] does, it never raises [IndexError],
    whether or not every replay has left a profile; with tools that can
    be started, exit with status zero and print text, merged databases
    that can be removed and a time shift that fits a [float], it returns
    one sample per checkpoint. *)
Theorem batch_then_sampler (harness : Path -> bool) (queue_files : list queue_file)
  (profraw_dir : string) (entries : list string) (t : tools) (harness_bin : string)
  (time_shift : Z) (tr : list call) :
  Permutation entries (run_coverage_batch harness queue_files) ->
  let outcome :=
    get_cumulative_coverage profraw_dir entries t harness_bin queue_files time_shift tr in
  fst outcome <> Raise IndexError
  /\ (tools_succeed t -> fits_float time_shift ->
      exists samples,
        fst outcome = Ok samples
        /\ List.length samples
           = List.length (checkpoints (profiles_of profraw_dir entries))).
Proof.
  intros Hperm outcome.
  assert (Hlen : List.length (profiles_of profraw_dir entries) <= List.length queue_files).
  { etransitivity; [apply profiles_of_length |].
    rewrite (Permutation_length Hperm). apply replay_length. }
  split.
  - unfold outcome.
    destruct (get_cumulative_coverage profraw_dir entries t harness_bin queue_files
                time_shift tr) as [[samples | e] tr'] eqn:Hrun; cbn [fst];
      [discriminate |].
    intros He. injection He as ->.
    apply get_cumulative_coverage_raises in Hrun. cbv zeta in Hrun.
    destruct Hrun as (completed & idx & rest & s & Hpts & _ & Hwhy).
    assert (Hidx : idx < List.length (profiles_of profraw_dir entries)).
    { unfold checkpoints in Hpts.
      destruct (profiles_of profraw_dir entries) as [| p ps] eqn:E.
      - destruct completed; discriminate.
      - apply sample_points_in_range; [cbn; lia |].
        rewrite Hpts. apply in_or_app. right. now left. }
    apply fails_at_index_error in Hwhy. lia.
  - intros Htools Hshift.
    destruct (get_cumulative_coverage_returns profraw_dir entries t harness_bin
                queue_files time_shift tr Htools Hshift) as (samples & tr' & Hrun).
    { unfold profiles_of in Hlen. now rewrite sorted_length in Hlen. }
    exists samples. unfold outcome. rewrite Hrun. split; [reflexivity |].
    apply get_cumulative_coverage_shape in Hrun. destruct Hrun as (_ & Hsamples & _).
    symmetry. exact (Forall2_length Hsamples).
Qed.

Lemma batch_then_sampler_witness :
  fst (get_cumulative_coverage "p" profraw_names tools_cut "h" queue_scanned 0 [])
  <> Raise IndexError
  /\ exists samples,
       fst (get_cumulative_coverage "p" profraw_names tools_cut "h" queue_scanned 0 [])
       = Ok samples
       /\ List.length samples = List.length (checkpoints (profiles_of "p" profraw_names)).
Proof.
  destruct (batch_then_sampler (fun _ => true) queue_scanned "p" profraw_names
              tools_cut "h" 0 []) as [Hindex Hreturns].
  - apply perm_swap.
  - split; [exact Hindex |]. apply Hreturns.
    + split; [| reflexivity].
      intros files. repeat split. cbn.
      destruct (List.length files <=? 1); discriminate.
    + vm_compute. reflexivity.
Defined.

(** ** The seed deriver: lines, files and counters *)

Lemma splitlines_one_line (s : str) : Forall one_line (splitlines s).
Proof.
  assert (H : forall n t, List.length t <= n -> Forall one_line (splitlines t)).
  { induction n as [| n IH]; intros t Hlen.
    - destruct t; [constructor | cbn in Hlen; lia].
    - destruct t as [| c t1]; [constructor |].
      cbn [List.length] in Hlen. cbn [splitlines].
      destruct (c =? 13)%N eqn:Hcr.
      + destruct t1 as [| d t2]; [repeat constructor |].
        assert (Hkeep : Forall one_line ([] :: splitlines (d :: t2))).
        { constructor; [constructor | apply IH; lia]. }
        assert (Hskip : Forall one_line ([] :: splitlines t2)).
        { constructor; [constructor | apply IH; cbn in Hlen; lia]. }
        destruct d as [| p]; [exact Hkeep |].
        do 4 (destruct p as [p | p |]; try exact Hkeep). exact Hskip.
      + destruct (linebreak c) eqn:Hlb.
        * constructor; [constructor | apply IH; lia].
        * specialize (IH t1 ltac:(lia)).
          destruct (splitlines t1) as [| l ls]; [repeat constructor |].
          -- unfold line_end. now rewrite Hcr, Hlb.
          -- inversion IH as [| ? ? Hl Hls]; subst.
             constructor; [| exact Hls].
             constructor; [| exact Hl]. unfold line_end. now rewrite Hcr, Hlb. }
  apply (H (List.length s)). lia.
Qed.

(** A line without boundary, followed by a newline, is split off whole. *)
Lemma splitlines_line (x rest : str) :
  one_line x -> splitlines (x ++ 10%N :: rest) = x :: splitlines rest.
Proof.
  induction 1 as [| c x Hc Hx IH]; [reflexivity |].
  unfold line_end in Hc. apply orb_false_iff in Hc. destruct Hc as [Hcr Hlb].
  cbn [app splitlines]. rewrite Hcr, Hlb, IH. reflexivity.
Qed.

Lemma splitlines_join (lines : list str) :
  lines <> [] -> Forall one_line lines ->
  splitlines (join [10%N] lines ++ [10%N]) = lines.
Proof.
  induction lines as [| x lines IH]; intros Hne Hall; [congruence |].
  inversion Hall as [| ? ? Hx Hrest]; subst.
  destruct lines as [| y lines].
  - cbn [join]. now rewrite (splitlines_line x [] Hx).
  - change (join [10%N] (x :: y :: lines)) with (x ++ [10%N] ++ join [10%N] (y :: lines)).
    rewrite <- !app_assoc. cbn [app].
    rewrite (splitlines_line x _ Hx). f_equal.
    apply IH; [discriminate | exact Hrest].
Qed.

Lemma run_encoder_lines (enc : encoder) (payload : list Byte.byte) :
  Forall one_line (fst (run_encoder enc payload)).
Proof.
  unfold run_encoder. destruct (negb (returncode (enc payload) =? 0)%Z); cbn [fst].
  - constructor.
  - apply splitlines_one_line.
Qed.

(** X11: when the encoder gives at least one line for a corpus file, the
    loop body writes one file, named after the entry with every colon
    replaced, whose text split into lines is again the encoder's lines;
    the file counter goes up by one and the entry counter by the number of
    lines. *)
Theorem seed_file_round_trip (enc : encoder) (st : state) (name : str)
  (payload : list Byte.byte) :
  fst (run_encoder enc payload) <> [] ->
  let st' := loop_body enc st (name, RegularFile payload) in
  exists text,
    written st' = written st ++ [(sanitize name, text)]
    /\ splitlines text = fst (run_encoder enc payload)
    /\ file_written st' = file_written st + 1
    /\ total_written st' = total_written st + List.length (splitlines text).
Proof.
  intros Hne st'. unfold st', loop_body. cbn [snd fst].
  pose proof (run_encoder_lines enc payload) as Hlines.
  destruct (run_encoder enc payload) as [outputs warnings]. cbn [fst] in *.
  destruct outputs as [| l ls]; [congruence |].
  exists (join [10%N] (l :: ls) ++ [10%N]). cbn [written file_written total_written].
  rewrite (splitlines_join (l :: ls) Hne Hlines). auto.
Qed.

Lemma seed_file_round_trip_witness :
  exists text,
    written (loop_body (fun _ => mkProc 0 (list_byte_of_string "a b") []) initial
               (lit "id:0", RegularFile []))
    = written initial ++ [(sanitize (lit "id:0"), text)]
    /\ splitlines text = [lit "a b"].
Proof.
  destruct (seed_file_round_trip (fun _ => mkProc 0 (list_byte_of_string "a b") [])
              initial (lit "id:0") []) as (text & Hw & Hs & _).
  - vm_compute. discriminate.
  - exists text. split; [exact Hw | exact Hs].
Defined.

(** One turn of the loop: the warnings of the entry, its file when it is
    productive, and the counters. *)
Lemma loop_body_eq (enc : encoder) (st : state) (p : str * entry) :
  loop_body enc st p
  = mkState (err st ++ warnings_of enc p)
            (written st ++ if productive enc p then [seed_file enc p] else [])
            (total_written st + List.length (lines_of enc p))
            (file_written st + if productive enc p then 1 else 0).
Proof.
  destruct p as [name e].
  unfold loop_body, productive, seed_file, warnings_of, lines_of. cbn [snd fst].
  destruct e as [payload |].
  - destruct (run_encoder enc payload) as [outputs warnings]. cbn [fst snd].
    destruct outputs as [| l ls]; cbn [err written total_written file_written List.length].
    + now rewrite app_nil_r, !Nat.add_0_r.
    + reflexivity.
  - cbn [List.length]. rewrite !app_nil_r, !Nat.add_0_r. now destruct st.
Qed.

(** The loop, as a whole: it adds the warnings of every entry, one file
    per productive entry, and counts files and lines. *)
Lemma main_loop_eq (enc : encoder) (paths : list (str * entry)) :
  forall st,
    main_loop enc paths st
    = mkState (err st ++ flat_map (warnings_of enc) paths)
              (written st ++ map (seed_file enc) (filter (productive enc) paths))
              (total_written st
               + list_sum (map (fun p => List.length (lines_of enc p)) paths))
              (file_written st + List.length (filter (productive enc) paths)).
Proof.
  unfold main_loop.
  induction paths as [| p paths IH]; intros st; cbn [fold_left].
  - cbn. rewrite !app_nil_r, !Nat.add_0_r. now destruct st.
  - rewrite IH, loop_body_eq. clear IH.
    cbn [err written total_written file_written flat_map filter map list_sum].
    destruct (productive enc p); cbn [map List.length];
      f_equal; rewrite <- ?app_assoc; try reflexivity;
      unfold list_sum; cbn [fold_right]; lia.
Qed.







(** ** The seed deriver: decoding *)

Lemma two_bytes_scalar (b0 b1 : N) :
  (b0 < 224)%N -> continuation b1 = true ->
  scalar (N.shiftl (N.land b0 31) 6 + low6 b1).
Proof.
  intros H0 H1. apply continuation_range in H1. bytes_arith.
Qed.

Lemma three_bytes_scalar (b0 b1 b2 : N) :
  (224 <= b0 < 240)%N -> second_ok b0 b1 = true -> continuation b2 = true ->
  scalar (N.shiftl (N.land b0 15) 12 + N.shiftl (low6 b1) 6 + low6 b2).
Proof.
  intros H0 H1 H2. apply second_ok_range in H1. apply continuation_range in H2.
  destruct H1 as (H1 & Ha & Hb & _). bytes_arith.
Qed.

Lemma four_bytes_scalar (b0 b1 b2 b3 : N) :
  (240 <= b0 < 245)%N -> second_ok b0 b1 = true ->
  continuation b2 = true -> continuation b3 = true ->
  scalar (N.shiftl (N.land b0 7) 18 + N.shiftl (low6 b1) 12
          + N.shiftl (low6 b2) 6 + low6 b3).
Proof.
  intros H0 H1 H2 H3. apply second_ok_range in H1.
  apply continuation_range in H2. apply continuation_range in H3.
  destruct H1 as (H1 & _ & _ & Hc & Hd). bytes_arith.
Qed.

Lemma replacement_scalar : scalar replacement.
Proof. unfold scalar, replacement. lia. Qed.

Lemma utf8_replace_scalar (bs : list N) : Forall scalar (utf8_replace bs).
Proof.
  assert (H : forall n l, List.length l <= n -> Forall scalar (utf8_replace l)).
  { induction n as [| n IH]; intros l Hlen.
    - destruct l; [constructor | cbn in Hlen; lia].
    - destruct l as [| b0 r0]; [constructor |].
      cbn [List.length] in Hlen. cbn [utf8_replace].
      assert (IH0 : Forall scalar (utf8_replace r0)) by (apply IH; lia).
      pose proof replacement_scalar as Hrep.
      destruct (N.ltb_spec b0 128); [constructor; [unfold scalar; lia | exact IH0] |].
      destruct (N.ltb_spec b0 194); [now constructor |].
      destruct (N.ltb_spec b0 224).
      { destruct r0 as [| b1 r1]; [now repeat constructor |].
        destruct (continuation b1) eqn:C1; [| now constructor].
        constructor; [now apply two_bytes_scalar |].
        apply IH. cbn [List.length] in *. lia. }
      destruct (N.ltb_spec b0 240).
      { destruct r0 as [| b1 r1]; [now repeat constructor |].
        destruct (second_ok b0 b1) eqn:S1; [| now constructor].
        destruct r1 as [| b2 r2]; [now repeat constructor |].
        destruct (continuation b2) eqn:C2.
        - constructor; [apply three_bytes_scalar; auto; lia |].
          apply IH. cbn [List.length] in *. lia.
        - constructor; [exact Hrep |]. apply IH. cbn [List.length] in *. lia. }
      destruct (N.ltb_spec b0 245); [| now constructor].
      destruct r0 as [| b1 r1]; [now repeat constructor |].
      destruct (second_ok b0 b1) eqn:S1; [| now constructor].
      destruct r1 as [| b2 r2]; [now repeat constructor |].
      destruct (continuation b2) eqn:C2.
      2:{ constructor; [exact Hrep |]. apply IH. cbn [List.length] in *. lia. }
      destruct r2 as [| b3 r3]; [now repeat constructor |].
      destruct (continuation b3) eqn:C3.
      + constructor; [apply four_bytes_scalar; auto; lia |].
        apply IH. cbn [List.length] in *. lia.
      + constructor; [exact Hrep |]. apply IH. cbn [List.length] in *. lia. }
  apply (H (List.length bs)). lia.
Qed.

Lemma join_forall (P : N -> Prop) (sep : str) (items : list str) :
  Forall P sep -> Forall (Forall P) items -> Forall P (join sep items).
Proof.
  intros Hsep. induction 1 as [| x items Hx Hitems IH]; [constructor |].
  destruct items as [| y items]; [exact Hx |].
  change (join sep (x :: y :: items)) with (x ++ sep ++ join sep (y :: items)).
  rewrite !Forall_app. auto.
Qed.

Lemma splitlines_forall (P : N -> Prop) (s : str) :
  Forall P s -> Forall (Forall P) (splitlines s).
Proof.
  assert (H : forall n t, List.length t <= n -> Forall P t -> Forall (Forall P) (splitlines t)).
  { induction n as [| n IH]; intros t Hlen Ht.
    - destruct t; [constructor | cbn in Hlen; lia].
    - destruct t as [| c t1]; [constructor |].
      cbn [List.length] in Hlen. inversion Ht as [| ? ? Hc Ht1]; subst.
      cbn [splitlines].
      destruct (c =? 13)%N.
      + destruct t1 as [| d t2]; [repeat constructor |].
        inversion Ht1 as [| ? ? Hd Ht2]; subst.
        assert (Hkeep : Forall (Forall P) ([] :: splitlines (d :: t2))).
        { constructor; [constructor | apply IH; [lia | exact Ht1]]. }
        assert (Hskip : Forall (Forall P) ([] :: splitlines t2)).
        { constructor; [constructor | apply IH; [cbn in Hlen; lia | exact Ht2]]. }
        destruct d as [| p]; [exact Hkeep |].
        do 4 (destruct p as [p | p |]; try exact Hkeep). exact Hskip.
      + destruct (linebreak c).
        * constructor; [constructor | apply IH; [lia | exact Ht1]].
        * specialize (IH t1 ltac:(lia) Ht1).
          destruct (splitlines t1) as [| l ls]; [repeat constructor; exact Hc |].
          inversion IH as [| ? ? Hl Hls]; subst.
          constructor; [| exact Hls]. now constructor. }
  apply (H (List.length s)). lia.
Qed.

Lemma seed_file_scalar (enc : encoder) (p : str * entry) :
  Forall scalar (snd (seed_file enc p)).
Proof.
  unfold seed_file. cbn [snd].
  assert (Hnl : Forall scalar [10%N]) by (repeat constructor; unfold scalar; lia).
  apply Forall_app. split; [| exact Hnl].
  apply join_forall; [exact Hnl |].
  unfold lines_of. destruct (snd p) as [payload |]; [| constructor].
  unfold run_encoder. destruct (negb (returncode (enc payload) =? 0)%Z); cbn [fst].
  - constructor.
  - apply splitlines_forall, utf8_replace_scalar.
Qed.

(** X13: decoding the encoder's output never yields a surrogate or a code
    point above U+10FFFF, whatever the bytes are, and so the text of every
    seed file that [main] writes holds only code points that UTF-8 can
    encode. *)
Theorem seed_text_encodable (entries : list (str * entry)) (enc : encoder) :
  (forall b, Forall scalar (decode b))
  /\ exists st,
       main (Some entries) (Some enc) = Finished st
       /\ Forall (fun f => Forall scalar (snd f)) (written st).
Proof.
  split; [intros b; apply utf8_replace_scalar |].
  eexists. split; [reflexivity |].
  rewrite main_loop_eq. cbn [written initial app].
  apply Forall_forall. intros f Hf.
  apply in_map_iff in Hf. destruct Hf as (p & <- & _).
  apply seed_file_scalar.
Qed.

(** ** The seed deriver: output names *)

(** X14: the output name never contains a colon and has the length of
    the source name; two source names get the same output name exactly
    when they have the same length and differ only where one has a colon
    and the other an underscore. *)
Theorem sanitize_collisions (a b : str) :
  ~ In 58%N (sanitize a)
  /\ List.length (sanitize a) = List.length a
  /\ (sanitize a = sanitize b <-> Forall2 alike a b).
Proof.
  unfold sanitize. split; [| split].
  - intros H. apply in_map_iff in H. destruct H as (c & Hc & _).
    destruct (N.eqb_spec c 58); lia.
  - apply length_map.
  - split.
    + revert b. induction a as [| x a IH]; intros [| y b] H; cbn in H;
        try discriminate; [constructor |].
      injection H as Hxy H. constructor; [| now apply IH].
      unfold alike. destruct (N.eqb_spec x 58), (N.eqb_spec y 58); lia.
    + induction 1 as [| x y a b Hxy _ IH]; cbn; [reflexivity |].
      rewrite IH. f_equal. unfold alike in Hxy.
      destruct (N.eqb_spec x 58), (N.eqb_spec y 58); lia.
Qed.

(** ** The seed deriver: decoding plain text *)

Lemma utf8_replace_length (bs : list N) :
  List.length (utf8_replace bs) <= List.length bs.
Proof.
  assert (H : forall n l, List.length l <= n ->
                          List.length (utf8_replace l) <= List.length l).
  { induction n as [| n IH]; intros l Hlen.
    - destruct l; [cbn; lia | cbn in Hlen; lia].
    - destruct l as [| b0 r0]; [cbn; lia |].
      cbn [List.length] in Hlen. cbn [utf8_replace].
      assert (IH0 : List.length (utf8_replace r0) <= List.length r0) by (apply IH; lia).
      repeat match goal with
             | |- context [if ?c then _ else _] => destruct c
             | |- context [match ?l with [] => _ | _ :: _ => _ end] =>
                 is_var l; destruct l
             end;
        cbn [List.length] in *;
        repeat match goal with
               | |- context [List.length (utf8_replace ?l)] =>
                   lazymatch goal with
                   | _ : List.length (utf8_replace l) <= _ |- _ => fail
                   | _ => assert (List.length (utf8_replace l) <= List.length l)
                            by (apply IH; cbn [List.length] in *; lia)
                   end
               end;
        cbn [List.length] in *; lia. }
  apply (H (List.length bs)). lia.
Qed.

(** X15: decoding never yields more characters than there are bytes, and
    bytes that are all below 128 are decoded one character per byte, each
    with the value of its byte. *)
Theorem decode_plain_text (b : list Byte.byte) :
  List.length (decode b) <= List.length b
  /\ (Forall (fun x => (Byte.to_N x < 128)%N) b -> decode b = map Byte.to_N b).
Proof.
  unfold decode. split.
  - rewrite <- (length_map Byte.to_N b). apply utf8_replace_length.
  - induction 1 as [| x l Hx _ IH]; cbn [map utf8_replace]; [reflexivity |].
    apply N.ltb_lt in Hx. now rewrite Hx, IH.
Qed.

Lemma decode_plain_text_witness :
  decode (list_byte_of_string "a b") = map Byte.to_N (list_byte_of_string "a b").
Proof.
  apply (proj2 (decode_plain_text (list_byte_of_string "a b"))).
  repeat constructor.
Defined.

(** ** [main]: the dictionaries *)

Lemma dict_get_set {V : Type} (k k' : string) (v : V) (d : dict V) :
  dict_get k (dict_set k' v d) = if String.eqb k' k then Some v else dict_get k d.
Proof.
  induction d as [| [k0 v0] d IH]; cbn; [reflexivity |].
  destruct (String.eqb_spec k0 k') as [-> | Hne]; cbn.
  - now destruct (String.eqb k' k).
  - rewrite IH. destruct (String.eqb_spec k0 k) as [-> | Hne']; [| reflexivity].
    destruct (String.eqb_spec k' k); [congruence | reflexivity].
Qed.

Lemma dict_set_new {V : Type} (k : string) (v : V) (d : dict V) :
  dict_get k d = None -> dict_set k v d = d ++ [(k, v)].
Proof.
  induction d as [| [k0 v0] d IH]; cbn; [reflexivity |].
  destruct (String.eqb k0 k); [discriminate |].
  intros H. now rewrite IH.
Qed.

Lemma dict_get_app {V : Type} (k : string) (d d' : dict V) :
  dict_get k (d ++ d')
  = match dict_get k d with
    | Some v => Some v
    | None => dict_get k d'
    end.
Proof.
  induction d as [| [k0 v0] d IH]; cbn; [reflexivity |].
  now destruct (String.eqb k0 k).
Qed.

Lemma dict_get_none {V : Type} (k : string) (d : dict V) :
  dict_get k d = None <-> ~ In k (map fst d).
Proof.
  induction d as [| [k0 v0] d IH]; cbn; [tauto |].
  destruct (String.eqb_spec k0 k) as [-> | Hne].
  - split; [discriminate | tauto].
  - rewrite IH. tauto.
Qed.

Lemma dict_of_none {V : Type} (k : string) (pairs : list (string * V)) :
  dict_get k (dict_of pairs) = None <-> ~ In k (map fst pairs).
Proof.
  unfold dict_of.
  assert (H : forall d, dict_get k (fold_left (fun d kv => dict_set (fst kv) (snd kv) d) pairs d)
                        = None
                        <-> dict_get k d = None /\ ~ In k (map fst pairs)).
  { induction pairs as [| [k0 v0] pairs IH]; intros d; cbn [fold_left map In fst snd].
    - tauto.
    - rewrite IH, dict_get_set.
      destruct (String.eqb_spec k0 k) as [-> | Hne].
      + split; [intros [H _]; discriminate | tauto].
      + tauto. }
  rewrite H. cbn. tauto.
Qed.

(** ** [main]: the loop over the runs *)

Lemma main_loop_from (w : world) (harness_bin : string) (time_shifts : dict Z)
  (runs : list string) :
  forall runs_data,
    NoDup runs ->
    (forall r, In r runs -> dict_get r time_shifts <> None) ->
    (forall r, In r runs -> dict_get r runs_data = None) ->
    PlotMain.main_loop w harness_bin time_shifts runs runs_data
    = inr (runs_data ++ flat_map (contribution w harness_bin time_shifts) runs).
Proof.
  induction runs as [| run rest IH]; intros runs_data Hnd Hshift Hfresh; cbn.
  - now rewrite app_nil_r.
  - inversion Hnd as [| ? ? Hnotin Hnd']; subst.
    unfold contribution at 1.
    destruct (dict_get run time_shifts) as [s |] eqn:Hs.
    2:{ destruct (Hshift run (or_introl eq_refl) Hs). }
    destruct (analyze w harness_bin run s) as [data | e].
    + rewrite (dict_set_new run data runs_data (Hfresh run (or_introl eq_refl))).
      rewrite IH; [now rewrite <- app_assoc | exact Hnd' | |].
      * intros r Hr. apply Hshift. now right.
      * intros r Hr. rewrite dict_get_app, (Hfresh r (or_intror Hr)). cbn.
        destruct (String.eqb_spec run r); [congruence | reflexivity].
    + rewrite IH; [reflexivity | exact Hnd' | |].
      * intros r Hr. apply Hshift. now right.
      * intros r Hr. apply Hfresh. now right.
Qed.

(** X16: when the runs are distinct and each has a time shift, the loop
    of [main] ends with [runs_data] holding, in the order of the runs, the
    samples of every run whose analysis returns; a run whose analysis
    raises adds nothing and does not stop the runs after it. *)
Theorem main_loop_isolates_failures (w : world) (harness_bin : string)
  (time_shifts : dict Z) (runs : list string) :
  NoDup runs ->
  (forall r, In r runs -> dict_get r time_shifts <> None) ->
  PlotMain.main_loop w harness_bin time_shifts runs []
  = inr (flat_map (contribution w harness_bin time_shifts) runs).
Proof.
  intros Hnd Hshift.
  now rewrite (main_loop_from w harness_bin time_shifts runs [] Hnd Hshift).
Qed.

Lemma main_loop_isolates_failures_witness :
  PlotMain.main_loop world_three "harness" shifts_three runs_three []
  = inr (flat_map (contribution world_three "harness" shifts_three) runs_three).
Proof.
  apply main_loop_isolates_failures.
  - repeat (constructor; [cbn; intuition discriminate |]). constructor.
  - intros r [<- | [<- | [<- | []]]]; discriminate.
Defined.

(** ** [main]: the analysis of one run *)

Lemma parse_queue_files_length (queue_dir : string) (names : list string)
  (qf : list queue_file) :
  parse_queue_files queue_dir (Some names) = Ok qf ->
  List.length qf = List.length (filter kept_name names).
Proof.
  intros H.
  destruct (parse_queue_files_eq queue_dir names) as (qf0 & Hscan & Hparse).
  rewrite Hparse in H. injection H as <-.
  destruct (scan_queue_ok
              (sorted path_leb (glob (fun n => startswith n "id:") queue_dir names)))
    as (qf' & Hscan' & Hmap & _).
  assert (qf' = qf0) by congruence. subst qf'.
  rewrite sorted_length.
  transitivity (List.length (map snd qf0)); [symmetry; apply length_map |].
  rewrite Hmap, <- (glob_kept_length queue_dir names).
  apply Permutation_length, filter_perm, sorted_perm.
Qed.

Lemma batch_sampler_returns (leaves : Path -> bool) (queue_files : list queue_file)
  (profraw_dir : string) (t : tools) (harness_bin : string) (time_shift : Z) :
  tools_succeed t ->
  fits_float time_shift ->
  exists samples,
    fst (get_cumulative_coverage profraw_dir (run_coverage_batch leaves queue_files) t
           harness_bin queue_files time_shift [])
    = Ok samples
    /\ List.length samples <= 9.
Proof.
  intros Htools Hshift.
  destruct (get_cumulative_coverage_returns profraw_dir
              (run_coverage_batch leaves queue_files) t harness_bin queue_files
              time_shift [] Htools Hshift) as (samples & tr' & Hrun).
  { unfold glob. rewrite length_map.
    etransitivity; [apply filter_length_le | apply replay_length]. }
  exists samples. rewrite Hrun. split; [reflexivity |].
  now apply get_cumulative_coverage_shape in Hrun.
Qed.

(** X17: the analysis of a run raises [FileNotFoundError] when the queue
    directory of the run does not exist, and [IndexError] when it exists
    but no entry begins with [id:] and contains the token.  Otherwise the
    scanner returns the queue files, and the analysis raises the exception
    of setting up the directory of the profiles, if that fails, or else
    that of the first replay that cannot be started, if there is one; when
    neither fails, the tools can be started, exit with status zero and
    print text, the merged databases can be removed and the time shift
    fits a [float], it returns at most nine samples. *)
Theorem analyze_outcome (w : world) (harness_bin : string) (run : string)
  (time_shift : Z) :
  (queue_of w run = None ->
   analyze w harness_bin run time_shift = Raise FileNotFoundError)
  /\ (forall names,
         queue_of w run = Some names -> filter kept_name names = [] ->
         analyze w harness_bin run time_shift = Raise IndexError)
  /\ (forall names,
         queue_of w run = Some names -> filter kept_name names <> [] ->
         exists queue_files,
           parse_queue_files (queue_dir_of w run) (Some names) = Ok queue_files
           /\ match setup_fault w (profraw_dir_of run) with
              | Some f => analyze w harness_bin run time_shift = Raise (exn_of f)
              | None =>
                  match batch_fault (replay_fault w) queue_files with
                  | Some f => analyze w harness_bin run time_shift = Raise (exn_of f)
                  | None =>
                      tools_succeed (coverage_tools w) ->
                      fits_float time_shift ->
                      exists data,
                        analyze w harness_bin run time_shift = Ok data
                        /\ List.length data <= 9
                  end
              end).
Proof.
  unfold analyze. split; [| split].
  - intros ->. reflexivity.
  - intros names -> Hnone.
    destruct (parse_queue_files (queue_dir_of w run) (Some names)) as [qf | e] eqn:Hp.
    + apply parse_queue_files_length in Hp. rewrite Hnone in Hp.
      destruct qf; [reflexivity | discriminate].
    + destruct (parse_queue_files_eq (queue_dir_of w run) names) as (qf0 & _ & H).
      congruence.
  - intros names -> Hsome.
    destruct (parse_queue_files_eq (queue_dir_of w run) names) as (qf0 & _ & Hp).
    rewrite Hp. pose proof (parse_queue_files_length _ _ _ Hp) as Hlen.
    exists (sorted time_leb qf0). split; [reflexivity |].
    cbn [rbind].
    destruct (sorted time_leb qf0) as [| q qf] eqn:E.
    + destruct (filter kept_name names); [congruence | discriminate].
    + cbn [getitem nth_error rbind].
      destruct (setup_fault w (profraw_dir_of run)) as [f |]; [reflexivity |].
      cbn [unless rbind].
      destruct (batch_fault (replay_fault w) (q :: qf)) as [f |]; [reflexivity |].
      cbn [unless rbind].
      intros Htools Hshift. now apply batch_sampler_returns.
Qed.

Lemma analyze_outcome_witness :
  analyze world_three "harness" "bare" 0 = Raise IndexError
  /\ exists data,
       analyze world_three "harness" "good" 0 = Ok data /\ List.length data <= 9.
Proof.
  destruct (analyze_outcome world_three "harness" "good" 0) as (_ & _ & Hgood).
  destruct (analyze_outcome world_three "harness" "bare" 0) as (_ & Hbare & _).
  split.
  - apply (Hbare ["README.txt"]); reflexivity.
  - destruct (Hgood queue_names) as (queue_files & Hscan & Hrun).
    + reflexivity.
    + vm_compute. discriminate.
    + vm_compute in Hscan. injection Hscan as <-.
      apply Hrun.
      * split; [intros files; repeat split; discriminate | reflexivity].
      * vm_compute. reflexivity.
Defined.

(** ** [main]: a missing time shift *)

Lemma main_loop_key_error (w : world) (harness_bin : string) (time_shifts : dict Z)
  (pre : list string) (run : string) (rest : list string) :
  forall runs_data,
    (forall r, In r pre -> dict_get r time_shifts <> None) ->
    dict_get run time_shifts = None ->
    PlotMain.main_loop w harness_bin time_shifts (pre ++ run :: rest) runs_data = inl run.
Proof.
  induction pre as [| r pre IH]; intros runs_data Hpre Hrun; cbn.
  - now rewrite Hrun.
  - destruct (dict_get r time_shifts) as [s |] eqn:Hs.
    2:{ destruct (Hpre r (or_introl eq_refl) Hs). }
    destruct (analyze w harness_bin r s); apply IH; auto.
    all: intros r' Hr'; apply Hpre; now right.
Qed.

Lemma combine_keys {A B : Type} (a : list A) (b : list B) :
  map fst (combine a b) = firstn (List.length b) a.
Proof.
  revert b. induction a as [| x a IH]; intros [| y b]; cbn; try reflexivity.
  now rewrite IH.
Qed.

Lemma split_at {A : Type} (l : list A) (k : nat) (d : A) :
  k < List.length l -> l = firstn k l ++ nth k l d :: skipn (S k) l.
Proof.
  revert k. induction l as [| x l IH]; intros [| k] Hk; cbn in *; try lia.
  - reflexivity.
  - f_equal. apply IH. lia.
Qed.

(** X18: when time shifts are given and are integers but there are fewer
    of them than runs, the runs being distinct, and the harness binary
    exists, [main] ends with an uncaught [KeyError] for the first run that
    has no time shift, and draws no plot, whatever the analyses of the
    runs before it gave; when the harness binary does not exist, [main]
    stops at the missing harness before it looks at any run. *)
Theorem main_missing_time_shift (a : args) (w : world) (text : string) (shifts : list Z) :
  let runs := split_on colon (runs_arg a) in
  given (time_shifts_arg a) = Some text ->
  ints (split_on colon text) = Ok shifts ->
  NoDup runs ->
  List.length shifts < List.length runs ->
  PlotMain.main a w
  = if harness_exists a
    then UncaughtKeyError (nth (List.length shifts) runs EmptyString)
    else HarnessNotFound.
Proof.
  intros runs Hgiven Hints Hnd Hlen.
  unfold PlotMain.main. fold runs. rewrite Hgiven, Hints. cbn [rbind].
  destruct (harness_exists a); cbn [negb]; [| reflexivity].
  pose proof (split_at runs (List.length shifts) EmptyString Hlen) as Hsplit.
  set (k := List.length shifts) in *.
  assert (Hloop : forall ts,
             (forall r, In r (firstn k runs) -> dict_get r ts <> None) ->
             dict_get (nth k runs EmptyString) ts = None ->
             PlotMain.main_loop w (harness_arg a) ts runs []
             = inl (nth k runs EmptyString)).
  { intros ts H1 H2. rewrite Hsplit at 1. now apply main_loop_key_error. }
  rewrite Hloop; [reflexivity | |].
  - intros r Hr Hnone. apply dict_of_none in Hnone. apply Hnone.
    now rewrite combine_keys.
  - apply dict_of_none. rewrite combine_keys. fold k.
    rewrite Hsplit in Hnd. apply NoDup_remove_2 in Hnd.
    intros Hin. apply Hnd, in_or_app. now left.
Qed.

Lemma main_missing_time_shift_witness :
  PlotMain.main args_two_shifts world_three = UncaughtKeyError "gone".
Proof.
  apply (main_missing_time_shift args_two_shifts world_three "0:5" [0%Z; 5%Z]).
  - reflexivity.
  - reflexivity.
  - repeat (constructor; [cbn; intuition discriminate |]). constructor.
  - cbn. lia.
Defined.

(** ** The comparison plot *)

Lemma plot_from_labels (labels : dict string) (items : dict (list sample)) :
  forall idx,
    map series_label (plot_from labels idx items)
    = map (fun item => label_for labels (fst item)) (filter drawn items).
Proof.
  induction items as [| [run_name data] items IH]; intros idx; cbn [plot_from filter];
    [reflexivity |].
  unfold drawn at 1. cbn [snd].
  destruct data as [| d data]; [apply IH |].
  cbn [map series_label fst]. now rewrite IH.
Qed.

Lemma plot_from_colors (labels : dict string) (items : dict (list sample)) :
  forall idx,
    exists positions,
      map series_color (plot_from labels idx items)
      = map (fun i => nth (i mod List.length colors) colors EmptyString) positions
      /\ StronglySorted lt positions
      /\ Forall (fun i => idx <= i < idx + List.length items) positions.
Proof.
  induction items as [| [run_name data] items IH]; intros idx; cbn [plot_from].
  - exists []. repeat split; constructor.
  - destruct (IH (S idx)) as (positions & Hmap & Hsorted & Hrange).
    assert (Hrange' : Forall (fun i => idx < i
                                       /\ idx <= i < idx + List.length ((run_name, data) :: items))
                             positions).
    { rewrite Forall_forall in *. intros i Hi. specialize (Hrange i Hi).
      cbn [List.length]. lia. }
    destruct data as [| d data].
    + exists positions. repeat split; try assumption.
      rewrite Forall_forall in *. intros i Hi. now apply Hrange'.
    + exists (idx :: positions). cbn [map series_color]. rewrite Hmap.
      repeat split.
      * constructor; [exact Hsorted |].
        rewrite Forall_forall in *. intros i Hi. now apply Hrange'.
      * constructor; [cbn [List.length]; lia |].
        rewrite Forall_forall in *. intros i Hi. now apply Hrange'.
Qed.

Lemma colors_distinct (i j : nat) :
  i < j -> j < 5 ->
  nth (i mod List.length colors) colors EmptyString
  <> nth (j mod List.length colors) colors EmptyString.
Proof.
  intros Hij Hj.
  destruct j as [| [| [| [| [| j]]]]]; try lia;
    destruct i as [| [| [| [| i]]]]; try lia; cbn; discriminate.
Qed.

(** X19: the plot has one line for each entry of [runs_data] that has a
    sample, in order, labelled with the entry's label, or with the run
    name when it has no label; entries without samples are passed over.
    With at most five entries, no two lines have the same colour. *)
Theorem plot_comparison_lines (runs_data : dict (list sample)) (labels : dict string) :
  map series_label (plot_comparison runs_data labels)
  = map (fun item => label_for labels (fst item)) (filter drawn runs_data)
  /\ (List.length runs_data <= 5 ->
      NoDup (map series_color (plot_comparison runs_data labels))).
Proof.
  unfold plot_comparison. split; [apply plot_from_labels |].
  intros Hlen.
  destruct (plot_from_colors labels runs_data 0) as (positions & -> & Hsorted & Hrange).
  clear labels. induction Hsorted as [| i positions Hs IH Hi]; cbn [map]; constructor.
  - intros Hin. apply in_map_iff in Hin. destruct Hin as (j & Heq & Hj).
    inversion Hrange as [| ? ? _ Hrest]; subst.
    rewrite Forall_forall in Hi, Hrest.
    specialize (Hi j Hj). specialize (Hrest j Hj).
    apply (colors_distinct i j); [exact Hi | lia | now symmetry].
  - apply IH. now inversion Hrange.
Qed.

Lemma plot_comparison_lines_witness :
  NoDup (map series_color
           (plot_comparison [("a", [(1%Q, 25%Z, 40%Z)]); ("b", []); ("c", [(1%Q, 7%Z, 10%Z)])]
              [])).
Proof.
  apply (proj2 (plot_comparison_lines
                  [("a", [(1%Q, 25%Z, 40%Z)]); ("b", []); ("c", [(1%Q, 7%Z, 10%Z)])] [])).
  cbn. lia.
Defined.

(** ** [main] without time shifts *)

Lemma dict_of_map {V : Type} (f : string -> V) (runs : list string) (r : string) :
  In r runs -> dict_get r (dict_of (map (fun run => (run, f run)) runs)) = Some (f r).
Proof.
  unfold dict_of.
  assert (H : forall d,
             (In r runs ->
              dict_get r (fold_left (fun d kv => dict_set (fst kv) (snd kv) d)
                            (map (fun run => (run, f run)) runs) d) = Some (f r))
             /\ (~ In r runs ->
                 dict_get r (fold_left (fun d kv => dict_set (fst kv) (snd kv) d)
                               (map (fun run => (run, f run)) runs) d) = dict_get r d)).
  { induction runs as [| r0 runs IH]; intros d; cbn [map fold_left fst snd].
    - split; [intros [] | reflexivity].
    - destruct (IH (dict_set r0 (f r0) d)) as [Hin Hout].
      destruct (in_dec string_dec r runs) as [Hr | Hr].
      + split; [intros _; now apply Hin | intros Hn; destruct Hn; now right].
      + rewrite (Hout Hr), dict_get_set. split.
        * intros [-> | Hr']; [now rewrite String.eqb_refl | contradiction].
        * intros Hn. destruct (String.eqb_spec r0 r) as [-> | _]; [| reflexivity].
          destruct Hn. now left. }
  intros Hr. now apply (H []).
Qed.

Lemma flat_map_same {A B : Type} (f g : A -> list B) (l : list A) :
  (forall x, In x l -> f x = g x) -> flat_map f l = flat_map g l.
Proof.
  induction l as [| x l IH]; intros H; cbn; [reflexivity |].
  rewrite (H x (or_introl eq_refl)), IH; [reflexivity |].
  intros y Hy. apply H. now right.
Qed.

Lemma plot_from_branches (labels : dict string) (items : dict (list sample)) :
  forall idx,
    map series_branches (plot_from labels idx items)
    = map (fun item => map branches_covered (snd item)) (filter drawn items).
Proof.
  induction items as [| [run_name data] items IH]; intros idx; cbn [plot_from filter];
    [reflexivity |].
  unfold drawn at 1. cbn [snd].
  destruct data as [| d data]; [apply IH |].
  cbn [map series_branches snd]. now rewrite IH.
Qed.

(** X20: without time shifts, the harness being there and the runs being
    distinct, [main] reports that no data was collected when the analysis
    of every run raises; as soon as the analysis of one run returns, it
    draws the plot, whose lines carry the covered-branch counts of the
    runs that returned at least one sample, in the order of the runs. *)
Theorem main_without_time_shifts (a : args) (w : world) :
  let runs := split_on colon (runs_arg a) in
  let data :=
    flat_map (fun run => match analyze w (harness_arg a) run 0 with
                         | Ok samples => [(run, samples)]
                         | Raise _ => []
                         end) runs in
  given (time_shifts_arg a) = None ->
  harness_exists a = true ->
  NoDup runs ->
  (data = [] -> PlotMain.main a w = NoData)
  /\ (data <> [] ->
      exists lines,
        PlotMain.main a w = Plot lines
        /\ map series_branches lines
           = map (fun item => map branches_covered (snd item)) (filter drawn data)).
Proof.
  intros runs data Hgiven Hharness Hnd.
  assert (Hloop : PlotMain.main_loop w (harness_arg a)
                    (dict_of (map (fun run => (run, 0%Z)) runs)) runs []
                  = inr data).
  { rewrite (main_loop_from w (harness_arg a) _ runs [] Hnd).
    - cbn [app]. f_equal. unfold data. apply flat_map_same.
      intros r Hr. unfold contribution.
      now rewrite (dict_of_map (fun _ => 0%Z) runs r Hr).
    - intros r Hr. now rewrite (dict_of_map (fun _ => 0%Z) runs r Hr).
    - reflexivity. }
  unfold PlotMain.main. fold runs. rewrite Hgiven, Hharness. cbn [negb].
  rewrite Hloop. split.
  - intros ->. reflexivity.
  - intros Hne. destruct data as [| item items] eqn:E; [congruence |].
    eexists. split; [reflexivity |].
    unfold plot_comparison. apply plot_from_branches.
Qed.

Lemma main_without_time_shifts_witness :
  exists lines,
    PlotMain.main args_plain world_three = Plot lines
    /\ map series_branches lines = [[25%Z; 25%Z]].
Proof.
  pose proof (main_without_time_shifts args_plain world_three) as H. cbv zeta in H.
  destruct H as [_ H].
  - reflexivity.
  - reflexivity.
  - repeat (constructor; [cbn; intuition discriminate |]). constructor.
  - destruct H as (lines & Hm & Hb).
    + vm_compute. discriminate.
    + exists lines. split; [exact Hm |]. rewrite Hb. vm_compute. reflexivity.
Defined.
